(** * Wordle assignment: scorer, standard game, cheating host, multiplayer room

    A shallow embedding of [wordle_core.py] and of the multiplayer guess
    branch of [server.py].

    Modelling conventions
    - A Python [str] is a [list ascii]; a character is an 8-bit code point
      (the Latin-1 range of Python's [str]), on which [str.strip] and
      [str.lower] are written out below.
    - Python [int] is [Z].
    - A raised exception is a value of [exn]; a method that mutates [self]
      returns the object as it is when the method exits, also when it exits
      by raising, paired with the exception or the returned value.
    - A Python [set] is a [gset]; iterating over it visits [elements] of it.
      A [dict] whose iteration order the code relies on is an association
      list in insertion order.
    - [print] calls are omitted. *)

From Stdlib Require Import ZArith Ascii String Lia.
From stdpp Require Import base decidable option list gmap sets fin_sets strings.

Open Scope Z_scope.

(** ** Python strings *)

Module Str.

(** [str.isspace] on one character of the 8-bit range. *)
Definition is_space (c : ascii) : bool :=
  match nat_of_ascii c with
  | 9 | 10 | 11 | 12 | 13 | 28 | 29 | 30 | 31 | 32 | 133 | 160 => true
  | _ => false
  end%nat.

(** [str.lower] on one character of the 8-bit range: A-Z, and the
    upper-case letters of Latin-1 (192-222 without the sign at 215). *)
Definition lower_char (c : ascii) : ascii :=
  let n := nat_of_ascii c in
  if ((65 <=? n) && (n <=? 90))%nat then ascii_of_nat (n + 32)
  else if ((192 <=? n) && (n <=? 222) && negb (n =? 215))%nat
       then ascii_of_nat (n + 32)
  else c.

Definition lower (w : list ascii) : list ascii := map lower_char w.

Fixpoint lstrip (w : list ascii) : list ascii :=
  match w with
  | [] => []
  | c :: w' => if is_space c then lstrip w' else w
  end.

Fixpoint rstrip (w : list ascii) : list ascii :=
  match w with
  | [] => []
  | c :: w' =>
      match rstrip w' with
      | [] => if is_space c then [] else [c]
      | r => c :: r
      end
  end.

Definition strip (w : list ascii) : list ascii := rstrip (lstrip w).

(** Truth value of a string: non-empty. *)
Definition truthy (w : list ascii) : bool :=
  match w with [] => false | _ => true end.

End Str.

Abbreviation py s := (list_ascii_of_string s) (only parsing).

(** ** wordle_core.py *)

Inductive token := HIT | PRESENT | MISS.

Global Instance token_eq_dec : EqDecision token.
Proof. solve_decision. Defined.

Inductive exn :=
| ValueError (msg : string)
| TypeError.

Global Instance exn_eq_dec : EqDecision exn.
Proof. solve_decision. Defined.

Definition normalize (w : list ascii) : list ascii := Str.lower (Str.strip w).

(** [remain.get(c, 0)] *)
Definition get0 (remain : gmap ascii Z) (c : ascii) : Z :=
  default 0 (remain !! c).

(** [s[i]] for an index the caller keeps in range. *)
Definition at_ (s : list ascii) (i : nat) : ascii := nth i s "000"%char.

(** Body of the first loop of [score_guess]. *)
Definition first_pass (a g : list ascii)
    (st : list token * gmap ascii Z) (i : nat) : list token * gmap ascii Z :=
  let '(res, remain) := st in
  if decide (at_ g i = at_ a i) then (<[i:=HIT]> res, remain)
  else (res, <[at_ a i := get0 remain (at_ a i) + 1]> remain).

(** Body of the second loop of [score_guess]. *)
Definition second_pass (g : list ascii)
    (st : list token * gmap ascii Z) (i : nat) : list token * gmap ascii Z :=
  let '(res, remain) := st in
  if decide (res !! i = Some HIT) then (res, remain)
  else if decide (0 < get0 remain (at_ g i))
       then (<[i:=PRESENT]> res, <[at_ g i := get0 remain (at_ g i) - 1]> remain)
       else (res, remain).

Definition score_guess (answer guess : list ascii) : exn + list token :=
  let a := normalize answer in
  let g := normalize guess in
  if decide (length a ≠ length g)
  then inl (ValueError "Guess length must match the answer length.")
  else
    let st0 := (replicate (length a) MISS, (∅ : gmap ascii Z)) in
    let st1 := foldl (first_pass a g) st0 (seq 0 (length a)) in
    let st2 := foldl (second_pass g) st1 (seq 0 (length a)) in
    inr (fst st2).

(** ** Game config and results *)

Record GameConfig := {
  max_rounds : Z;
  word_list : list (list ascii)
}.

Record RoundResult := {
  guess : list ascii;
  tokens : list token;
  remaining : Z;
  won : bool;
  over : bool
}.

(** ** Normal Wordle *)

Module NormalWordleGame.

Record t := mk {
  answer : list ascii;
  cfg : GameConfig;
  round : Z;
  history : list RoundResult
}.

(** [__init__] *)
Definition init (answer : list ascii) (cfg : GameConfig) : t :=
  mk (normalize answer) cfg 0 [].

Definition guess_word (self : t) (word : list ascii) : t * (exn + RoundResult) :=
  let word := normalize word in
  if decide (length word ≠ length (answer self))
  then (self, inl (ValueError "Guess must be same length as answer."))
  else if decide (word ∉ word_list (cfg self))
  then (self, inl (ValueError "Word not found in dictionary."))
  else
    let self := mk (answer self) (cfg self) (round self + 1) (history self) in
    match score_guess (answer self) word with
    | inl e => (self, inl e)
    | inr tokens =>
        let won := forallb (λ t, bool_decide (t = HIT)) tokens in
        let over := won || bool_decide (max_rounds (cfg self) ≤ round self) in
        let rr := Build_RoundResult word tokens
                    (max_rounds (cfg self) - round self) won over in
        (mk (answer self) (cfg self) (round self) (history self ++ [rr]), inr rr)
    end.

(** A sequence of calls on one instance: the instance after the last call
    and what each call raised or returned, in order. *)
Fixpoint play (self : t) (words : list (list ascii)) : t * list (exn + RoundResult) :=
  match words with
  | [] => (self, [])
  | w :: ws =>
      let '(self, r) := guess_word self w in
      let '(self, rs) := play self ws in
      (self, r :: rs)
  end.

End NormalWordleGame.

(** ** Cheating host *)

Module CheatingWordleGame.

Record t := mk {
  cfg : GameConfig;
  candidates : gset (list ascii);
  final : option (list ascii);
  round : Z
}.

(** [__init__] *)
Definition init (cfg : GameConfig) : t :=
  mk cfg (list_to_set (word_list cfg)) None 0.

(** [sum(t == x for t in pat)] *)
Definition count_tok (x : token) (pat : list token) : Z :=
  foldl (λ n t, n + (if decide (t = x) then 1 else 0)) 0 pat.

Definition key : Type := Z * Z * list token.

Definition key_of (pat : list token) : key :=
  (count_tok HIT pat, count_tok PRESENT pat, pat).

(** [buckets.setdefault(k, set()).add(c)] *)
Fixpoint setdefault_add (k : key) (c : list ascii)
    (buckets : list (key * gset (list ascii))) : list (key * gset (list ascii)) :=
  match buckets with
  | [] => [(k, {[c]})]
  | (k', s) :: rest =>
      if decide (k' = k) then (k', s ∪ {[c]}) :: rest
      else (k', s) :: setdefault_add k c rest
  end.

(** The partition loop, over the candidates in iteration order. *)
Fixpoint partition (word : list ascii) (cs : list (list ascii))
    (buckets : list (key * gset (list ascii)))
    : exn + list (key * gset (list ascii)) :=
  match cs with
  | [] => inr buckets
  | c :: cs' =>
      match score_guess c word with
      | inl e => inl e
      | inr pat => partition word cs' (setdefault_add (key_of pat) c buckets)
      end
  end.

(** [(h, p) < (bh, bp)] on tuples of integers. *)
Definition pair_ltb (x y : Z * Z) : bool :=
  (x.1 <? y.1) || ((x.1 =? y.1) && (x.2 <? y.2)).

Definition pair_eqb (x y : Z * Z) : bool :=
  (x.1 =? y.1) && (x.2 =? y.2).

(** Body of the selection loop. *)
Definition select (best : option key * gset (list ascii))
    (ks : key * gset (list ascii)) : option key * gset (list ascii) :=
  let '(k, s) := ks in
  match best.1 with
  | None => (Some k, s)
  | Some best_key =>
      let '(h, p, _) := k in
      let '(bh, bp, _) := best_key in
      if pair_ltb (h, p) (bh, bp)
         || (pair_eqb (h, p) (bh, bp) && bool_decide (size best.2 < size s)%nat)
      then (Some k, s)
      else best
  end.

(** [if self.final:] *)
Definition resolved (final : option (list ascii)) : option (list ascii) :=
  match final with
  | Some w => if Str.truthy w then Some w else None
  | None => None
  end.

Definition guess_word (self : t) (word : list ascii) : t * (exn + RoundResult) :=
  let word := normalize word in
  if decide (word ∉ word_list (cfg self))
  then (self, inl (ValueError "Word not found in dictionary."))
  else
    match resolved (final self) with
    | Some w =>
        (self, (NormalWordleGame.guess_word (NormalWordleGame.init w (cfg self)) word).2)
    | None =>
        let self := mk (cfg self) (candidates self) (final self) (round self + 1) in
        match partition word (elements (candidates self)) [] with
        | inl e => (self, inl e)
        | inr buckets =>
            let '(best_key, best_set) := foldl select (None, ∅) buckets in
            let self := mk (cfg self) best_set (final self) (round self) in
            match best_key with
            | None => (self, inl TypeError)
            | Some (_, _, pat) =>
                let self :=
                  if decide (size (candidates self) = 1%nat)
                  then mk (cfg self) (candidates self)
                          (head (elements (candidates self))) (round self)
                  else self in
                let over := bool_decide (max_rounds (cfg self) ≤ round self) in
                let rr := Build_RoundResult word pat
                            (max_rounds (cfg self) - round self) false over in
                (self, inr rr)
            end
        end
    end.

Fixpoint play (self : t) (words : list (list ascii)) : t * list (exn + RoundResult) :=
  match words with
  | [] => (self, [])
  | w :: ws =>
      let '(self, r) := guess_word self w in
      let '(self, rs) := play self ws in
      (self, r :: rs)
  end.

End CheatingWordleGame.

(** ** server.py: the multiplayer guess branch of [Handler.handle] *)

(** [str(e)] *)
Definition str_exn (e : exn) : string :=
  match e with
  | ValueError msg => msg
  | TypeError => "'NoneType' object is not subscriptable"
  end.

(** A connection handler is identified by a number. *)
Definition conn : Type := nat.

(** The [data] snapshot of an accepted guess. *)
Record guess_data := {
  d_player : string;
  d_tokens : list token;
  d_won : bool;
  d_over : bool;
  d_remaining : Z
}.

(** The JSON objects the branch writes. *)
Inductive message :=
| Rejection (error : string)           (* {"ok": False, "error": ...} *)
| Ack (data : guess_data)              (* {"ok": True, **data} *)
| GuessEvent (data : guess_data)       (* {"event": "guess", "data": data} *)
| GameOver (winner : string).          (* {"event": "game_over", "winner": ...} *)

(** One attempted write of a message on a connection. *)
Definition write : Type := conn * message.

Module MultiRoom.

Record t := mk {
  answer : list ascii;
  game : NormalWordleGame.t;
  players : gset string;
  streams : gset conn;
  over : bool
}.

(** [__init__], for the server's global config [CFG]. *)
Definition init (CFG : GameConfig) (answer : list ascii) : t :=
  mk answer (NormalWordleGame.init answer CFG) ∅ ∅ false.

End MultiRoom.

Section Handler.

(** Whether writing a message on a connection raises. *)
Variable fails : conn → message → bool.

Definition send_json (handler : conn) (obj : message) : list write :=
  [(handler, obj)].

Definition broadcast (room : MultiRoom.t) (msg : message) : MultiRoom.t * list write :=
  let targets := elements (MultiRoom.streams room) in
  let dead := filter (λ h, fails h msg = true) targets in
  (MultiRoom.mk (MultiRoom.answer room) (MultiRoom.game room) (MultiRoom.players room)
     (foldl (λ s d, s ∖ {[d]}) (MultiRoom.streams room) dead)
     (MultiRoom.over room),
   map (λ h, (h, msg)) targets).

(** Truth value of [winner]: a non-empty player name. *)
Definition credited (winner : option string) : bool :=
  match winner with
  | Some (String _ _) => true
  | _ => false
  end.

(** The multiplayer branch of action "guess" for the room [room] found
    under the request's id; [self] is the handler serving the request,
    [word] and [player] the request's fields. *)
Definition handle_guess (room : MultiRoom.t) (self : conn)
    (word : list ascii) (player : string) : MultiRoom.t * list write :=
  let word := Str.lower word in
  let room :=
    if decide (self ∉ MultiRoom.streams room)
    then MultiRoom.mk (MultiRoom.answer room) (MultiRoom.game room)
           (MultiRoom.players room) (MultiRoom.streams room ∪ {[self]})
           (MultiRoom.over room)
    else room in
  if MultiRoom.over room
  then (room, send_json self (Rejection "Game already over."))
  else
    let '(game, r) := NormalWordleGame.guess_word (MultiRoom.game room) word in
    let room := MultiRoom.mk (MultiRoom.answer room) game (MultiRoom.players room)
                  (MultiRoom.streams room) (MultiRoom.over room) in
    match r with
    | inl e => (room, send_json self (Rejection (str_exn e)))
    | inr rr =>
        let data := Build_guess_data player (tokens rr) (won rr) (over rr)
                      (remaining rr) in
        let winner := if won rr && negb (MultiRoom.over room)
                      then Some player else None in
        let room :=
          if credited winner
          then MultiRoom.mk (MultiRoom.answer room) (MultiRoom.game room)
                 (MultiRoom.players room) (MultiRoom.streams room) true
          else room in
        let w1 := send_json self (Ack data) in
        let '(room, w2) := broadcast room (GuessEvent data) in
        let '(room, w3) :=
          if credited winner
          then broadcast room (GameOver (default ""%string winner))
          else (room, []) in
        (room, w1 ++ w2 ++ w3)
    end.

End Handler.

(** * Vocabulary of the properties *)

(** Number of occurrences of the letter [c] in a word. *)
Definition occurrences (c : ascii) (t : list ascii) : nat :=
  length (filter (λ x, x = c) t).

(** Number of guess positions holding the letter [c] whose token is [tok]. *)
Definition marked (tok : token) (c : ascii) (g : list ascii) (pat : list token) : nat :=
  length (filter (λ x, x.1 = c ∧ x.2 = tok) (zip g pat)).

(** Number of guess positions holding the letter [c] whose token is HIT or
    PRESENT. *)
Definition credited_count (c : ascii) (g : list ascii) (pat : list token) : nat :=
  length (filter (λ x, x.1 = c ∧ (x.2 = HIT ∨ x.2 = PRESENT)) (zip g pat)).

(** The two loops of [score_guess] by recursion on the letters still to be
    visited; [first_pass_foldl] and [second_pass_foldl] relate them to the
    loops over indices. *)
Fixpoint first_loop (a g : list ascii) (remain : gmap ascii Z)
    : list token * gmap ascii Z :=
  match a, g with
  | x :: a', y :: g' =>
      if decide (y = x)
      then (HIT :: (first_loop a' g' remain).1, (first_loop a' g' remain).2)
      else let remain' := <[x := get0 remain x + 1]> remain in
           (MISS :: (first_loop a' g' remain').1, (first_loop a' g' remain').2)
  | _, _ => ([], remain)
  end.

Fixpoint second_loop (g : list ascii) (res : list token) (remain : gmap ascii Z)
    : list token * gmap ascii Z :=
  match g, res with
  | y :: g', t :: res' =>
      if decide (t = HIT)
      then (t :: (second_loop g' res' remain).1, (second_loop g' res' remain).2)
      else if decide (0 < get0 remain y)
      then let remain' := <[y := get0 remain y - 1]> remain in
           (PRESENT :: (second_loop g' res' remain').1, (second_loop g' res' remain').2)
      else (t :: (second_loop g' res' remain).1, (second_loop g' res' remain).2)
  | _, _ => ([], remain)
  end.

(** The invariants of the instances [__init__] and [guess_word] produce. *)
Definition normal_inv (self : NormalWordleGame.t) : Prop :=
  normalize (NormalWordleGame.answer self) = NormalWordleGame.answer self ∧
  Z.of_nat (length (NormalWordleGame.history self)) = NormalWordleGame.round self.

(** The two rejections of [NormalWordleGame.guess_word], under the names
    the error taxonomy gives them. *)
Definition InvalidInput : exn := ValueError "Guess must be same length as answer.".
Definition IllegalWord : exn := ValueError "Word not found in dictionary.".

(** The candidates that would produce the pattern [pat] against [word]. *)
Definition bucket (word : list ascii) (cands : gset (list ascii)) (pat : list token)
    : gset (list ascii) :=
  filter (λ c, score_guess c word = inr pat) cands.

(** A pair of counts is no greater than another, lexicographically. *)
Definition lex_le (x y : Z * Z) : Prop :=
  x.1 < y.1 ∨ (x.1 = y.1 ∧ x.2 ≤ y.2).

(** The (hitCount, presentCount) of a pattern: how many of its tokens are
    HIT and how many are PRESENT. *)
Definition hit_present (pat : list token) : Z * Z :=
  (Z.of_nat (length (filter (λ t, t = HIT) pat)),
   Z.of_nat (length (filter (λ t, t = PRESENT) pat))).

(** The key under which the partition loop files a candidate. *)
Definition key_of_candidate (word c : list ascii) : option CheatingWordleGame.key :=
  match score_guess c word with
  | inr pat => Some (CheatingWordleGame.key_of pat)
  | inl _ => None
  end.

Definition group (word : list ascii) (cands : gset (list ascii))
    (k : CheatingWordleGame.key) : gset (list ascii) :=
  filter (λ c, key_of_candidate word c = Some k) cands.

(** [buckets.get(k)] *)
Fixpoint assoc (k : CheatingWordleGame.key)
    (buckets : list (CheatingWordleGame.key * gset (list ascii)))
    : option (gset (list ascii)) :=
  match buckets with
  | [] => None
  | (k', s) :: rest => if decide (k' = k) then Some s else assoc k rest
  end.

(** The buckets are the groups of the candidates seen so far. *)
Definition partitioned (word : list ascii) (seen : gset (list ascii))
    (buckets : list (CheatingWordleGame.key * gset (list ascii))) : Prop :=
  NoDup buckets.*1 ∧
  ∀ k, assoc k buckets
       = if decide (group word seen k = ∅) then None else Some (group word seen k).

(** The selection loop's order on buckets: fewer hits, then fewer presents,
    then more members. *)
Definition no_worse (x y : CheatingWordleGame.key * gset (list ascii)) : Prop :=
  lex_le (x.1.1.1, x.1.1.2) (y.1.1.1, y.1.1.2) ∧
  ((y.1.1.1, y.1.1.2) = (x.1.1.1, x.1.1.2) → (size y.2 ≤ size x.2)%nat).

(** The connections a broadcast of [msg] to [streams] leaves attached. *)
Definition survivors (fails : conn → message → bool) (msg : message)
    (streams : gset conn) : gset conn :=
  filter (λ h, fails h msg = false) streams.

(** Configurations and instances of the examples. *)
Definition CFG_crane : GameConfig :=
  Build_GameConfig 6 [py "crane"; py "slate"; py "arena"].

Definition CFG_ab : GameConfig := Build_GameConfig 6 [py "ab"; py "cd"].

Definition room_crane : MultiRoom.t :=
  MultiRoom.mk (py "crane") (NormalWordleGame.init (py "crane") CFG_crane)
    {[ "ann"%string ]} {[ 1%nat; 2%nat ]} false.

Definition room_crane_win : RoundResult :=
  Build_RoundResult (py "crane") [HIT; HIT; HIT; HIT; HIT] 5 true true.

Definition ab_missed (remaining : Z) : RoundResult :=
  Build_RoundResult (py "ab") [MISS; MISS] remaining false false.

(** Number of guess positions holding the letter [c] whose token is not
    HIT. *)
Definition unmatched (c : ascii) (g : list ascii) (pat : list token) : nat :=
  length (filter (λ x, x.1 = c ∧ x.2 ≠ HIT) (zip g pat)).

(** The RoundResults among the outcomes of a sequence of calls, in order. *)
Definition returned (outcomes : list (exn + RoundResult)) : list RoundResult :=
  omap (λ r, match r with inr rr => Some rr | inl _ => None end) outcomes.

(** The host as the first statement of the unresolved path leaves it. *)
Definition next_round (self : CheatingWordleGame.t) : CheatingWordleGame.t :=
  CheatingWordleGame.mk (CheatingWordleGame.cfg self)
    (CheatingWordleGame.candidates self) (CheatingWordleGame.final self)
    (CheatingWordleGame.round self + 1).

(** The host after an unresolved call that retained the bucket of [pat]. *)
Definition narrowed (self : CheatingWordleGame.t) (word : list ascii)
    (pat : list token) : CheatingWordleGame.t :=
  let kept := bucket word (CheatingWordleGame.candidates self) pat in
  CheatingWordleGame.mk (CheatingWordleGame.cfg self) kept
    (if decide (size kept = 1%nat) then head (elements kept)
     else CheatingWordleGame.final self)
    (CheatingWordleGame.round self + 1).

(** A recorded final answer is the one candidate left. *)
Definition final_is_sole_candidate (self : CheatingWordleGame.t) : Prop :=
  ∀ f, CheatingWordleGame.final self = Some f →
       CheatingWordleGame.candidates self = {[f]}.

(** * The rest of server.py *)

(** [str.isalpha] on one character of the 8-bit range: the letters of
    ASCII and of Latin-1. *)
Definition isalpha_char (c : ascii) : bool :=
  let n := nat_of_ascii c in
  ((65 <=? n) && (n <=? 90) || (97 <=? n) && (n <=? 122)
   || (n =? 170) || (n =? 181) || (n =? 186)
   || (192 <=? n) && (n <=? 214) || (216 <=? n) && (n <=? 246)
   || (248 <=? n) && (n <=? 255))%nat.

(** [str.isalpha]: non-empty and all letters. *)
Definition isalpha (w : list ascii) : bool :=
  Str.truthy w && forallb isalpha_char w.

(** [w.replace(c, "")] for a one-character [c]. *)
Definition remove_char (c : ascii) (w : list ascii) : list ascii :=
  filter (λ x, x ≠ c) w.

(** [load_words], on the lines of the file. The byte-order mark the
    function removes lies outside the 8-bit range; it is the parameter
    [bom]. *)
Definition load_words (bom : ascii) (lines : list (list ascii)) : list (list ascii) :=
  filter (λ w, Str.truthy w && bool_decide (length w = 5%nat) && isalpha w = true)
         (map (λ line, remove_char bom (Str.lower (Str.strip line))) lines).

(** A single-player session holds a game of either class. *)
Inductive session :=
| NormalSession (game : NormalWordleGame.t)
| CheatSession (game : CheatingWordleGame.t).

(** [game.guess_word(word)] on a session. *)
Definition session_guess (s : session) (word : list ascii)
    : session * (exn + RoundResult) :=
  match s with
  | NormalSession game =>
      (NormalSession (NormalWordleGame.guess_word game word).1,
       (NormalWordleGame.guess_word game word).2)
  | CheatSession game =>
      (CheatSession (CheatingWordleGame.guess_word game word).1,
       (CheatingWordleGame.guess_word game word).2)
  end.

(** The global stores [sessions] and [multis]. *)
Record server := {
  sessions : gmap string session;
  multis : gmap string MultiRoom.t
}.

(** A decoded request whose fields, where present, are strings; [None] is
    an absent key. *)
Record request := {
  action : option string;
  mode : option string;
  game_id : option string;
  player : option string;
  word : option (list ascii)
}.

(** Every JSON object the handler writes. *)
Inductive reply :=
| InRoom (msg : message)        (* those of the multiplayer guess branch;
                                   a rejection is {"ok": False, "error": ...}
                                   wherever it is written *)
| Created (game_id : string)    (* {"ok": True, "game_id": gid} *)
| Joined (player : string) (players : list string)
                                (* {"ok": True, "joined": ..., "players": ...} *)
| JoinEvent (player : string) (players : list string)
                                (* {"event": "join", "data": {...}} *)
| Outcome (tokens : list token) (won over : bool) (remaining : Z).
                                (* {"ok": True, "tokens": ..., ...} *)

(** A message with an "event" key, as [broadcast] sends them. *)
Definition is_event (r : reply) : bool :=
  match r with
  | InRoom (GuessEvent _) | InRoom (GameOver _) | JoinEvent _ _ => true
  | _ => false
  end.

(** [str(x)] inside an f-string, for a field that may be absent. *)
Definition show (x : option string) : string := default "None"%string x.

Section Dispatch.

(** The word list [WL] the server loaded. *)
Variable WL : list (list ascii).

(** Whether writing a reply on a connection raises. *)
Variable fails : conn → reply → bool.

Definition CFG : GameConfig := Build_GameConfig 6 WL.

(** [random.choice(WL)], for the index the generator draws. *)
Definition choice (pick : nat) : string + list ascii :=
  match WL !! (pick mod length WL)%nat with
  | Some w => inr w
  | None => inl "Cannot choose from an empty sequence"%string
  end.

(** [broadcast], for any reply. *)
Definition broadcast_reply (room : MultiRoom.t) (msg : reply)
    : MultiRoom.t * list (conn * reply) :=
  let targets := elements (MultiRoom.streams room) in
  let dead := filter (λ h, fails h msg = true) targets in
  (MultiRoom.mk (MultiRoom.answer room) (MultiRoom.game room) (MultiRoom.players room)
     (foldl (λ s d, s ∖ {[d]}) (MultiRoom.streams room) dead)
     (MultiRoom.over room),
   map (λ h, (h, msg)) targets).

(** The handler's outer [except]: the error goes to the requester. *)
Definition refuse (st : server) (self : conn) (error : string)
    : server * list (conn * reply) :=
  (st, [(self, InRoom (Rejection error))]).

(** One turn of the loop of [Handler.handle], for a decoded request;
    [rand_id] is what [new_id()] returns and [pick] the index
    [random.choice] draws, if the turn calls them. *)
Definition handle (st : server) (self : conn) (req : request)
    (rand_id : string) (pick : nat) : server * list (conn * reply) :=
  let act := action req in
  if decide (act = Some "create"%string) then
    let mode := default "normal"%string (mode req) in
    let gid := rand_id in
    if decide (mode = "normal"%string) then
      match choice pick with
      | inl e => refuse st self e
      | inr w =>
          (Build_server
             (<[gid := NormalSession (NormalWordleGame.init w CFG)]> (sessions st))
             (multis st),
           [(self, Created gid)])
      end
    else if decide (mode = "cheat"%string) then
      (Build_server
         (<[gid := CheatSession (CheatingWordleGame.init CFG)]> (sessions st))
         (multis st),
       [(self, Created gid)])
    else refuse st self "Unknown mode."
  else if decide (act = Some "create_multi"%string) then
    let gid := rand_id in
    match choice pick with
    | inl e => refuse st self e
    | inr ans =>
        (Build_server (sessions st) (<[gid := MultiRoom.init CFG ans]> (multis st)),
         [(self, Created gid)])
    end
  else if decide (act = Some "join"%string) then
    let gid := game_id req in
    let player := default "anon"%string (player req) in
    match gid ≫= (λ k, pair k <$> multis st !! k) with
    | None => refuse st self ("Room " +:+ show gid +:+ " not found.")
    | Some (k, room) =>
        let room :=
          MultiRoom.mk (MultiRoom.answer room) (MultiRoom.game room)
            (MultiRoom.players room ∪ {[player]})
            (if decide (self ∉ MultiRoom.streams room)
             then MultiRoom.streams room ∪ {[self]}
             else MultiRoom.streams room)
            (MultiRoom.over room) in
        let players_list := elements (MultiRoom.players room) in
        let w1 := [(self, Joined player players_list)] in
        let '(room, w2) := broadcast_reply room (JoinEvent player players_list) in
        (Build_server (sessions st) (<[k := room]> (multis st)), w1 ++ w2)
    end
  else if decide (act = Some "guess"%string) then
    let gid := game_id req in
    let word := default [] (word req) in
    let player := default "anon"%string (player req) in
    match gid ≫= (λ k, pair k <$> multis st !! k) with
    | Some (k, room) =>
        let '(room, ws) :=
          handle_guess (λ h m, fails h (InRoom m)) room self word player in
        (Build_server (sessions st) (<[k := room]> (multis st)),
         map (λ w, (w.1, InRoom w.2)) ws)
    | None =>
        match gid ≫= (λ k, pair k <$> sessions st !! k) with
        | None => refuse st self ("Unknown game ID " +:+ show gid)
        | Some (k, game) =>
            let '(game, r) := session_guess game (Str.lower word) in
            (Build_server (<[k := game]> (sessions st)) (multis st),
             [(self,
               match r with
               | inl e => InRoom (Rejection (str_exn e))
               | inr rr => Outcome (tokens rr) (won rr) (over rr) (remaining rr)
               end)])
        end
    end
  else refuse st self ("Unknown action: " +:+ show act).

End Dispatch.

(** A run of multiplayer guesses on one room, each by a connection, with
    its word and player name: the room at the end and what each request
    wrote. *)
Fixpoint room_guesses (fails : conn → message → bool) (room : MultiRoom.t)
    (reqs : list (conn * list ascii * string)) : MultiRoom.t * list (list write) :=
  match reqs with
  | [] => (room, [])
  | (self, word, player) :: rest =>
      let '(room, ws) := handle_guess fails room self word player in
      let '(room, wss) := room_guesses fails room rest in
      (room, ws :: wss)
  end.

Definition is_game_over (w : write) : bool :=
  match w.2 with GameOver _ => true | _ => false end.

Definition is_winning_ack (w : write) : bool :=
  match w.2 with Ack d => d_won d | _ => false end.

(** A word list of normalised words of one length. *)
Definition uniform (k : nat) (wl : list (list ascii)) : Prop :=
  ∀ w, w ∈ wl → length w = k ∧ normalize w = w.

(** Example stores and requests. *)
Definition WL_crane : list (list ascii) := [py "crane"; py "slate"; py "arena"].

Definition store_crane : server :=
  Build_server
    {[ "1111"%string := NormalSession (NormalWordleGame.init (py "slate") (CFG WL_crane));
       "2222"%string := CheatSession (CheatingWordleGame.init (CFG WL_crane)) ]}
    {[ "1111"%string := MultiRoom.init (CFG WL_crane) (py "crane");
       "3333"%string := MultiRoom.init (CFG WL_crane) (py "arena") ]}.

Definition guess_request (gid : string) (who : string) (w : list ascii) : request :=
  Build_request (Some "guess"%string) None (Some gid) (Some who) (Some w).

Definition join_request (gid : string) (who : string) : request :=
  Build_request (Some "join"%string) None (Some gid) (Some who) None.



(** * cli_bonus.py *)

Module Cli.

(** [load_words], on the lines of the file. *)
Definition load_words (lines : list (list ascii)) : list (list ascii) :=
  map Str.strip (filter (λ x, Str.truthy (Str.strip x) = true) lines).

(** What the loop prints for a guess: the error, or the result (coloured
    by [colorize], with the attempts remaining). *)
Inductive shown :=
| ShownError (e : exn)
| ShownResult (guess : list ascii) (rr : RoundResult).

(** How the loop ends: by [record_score(player, rounds, win)] and [break],
    or by [input] raising EOFError when the input is used up. *)
Inductive ending :=
| Recorded (player : list ascii) (rounds : nat) (win : bool)
| EndOfInput.

(** The game loop of [main], on the lines still to be typed. *)
Fixpoint game_loop (player : list ascii) (game : NormalWordleGame.t)
    (inputs : list (list ascii)) : list shown * ending :=
  match inputs with
  | [] => ([], EndOfInput)
  | line :: inputs =>
      let guess := Str.lower (Str.strip line) in
      if negb (Str.truthy guess) then game_loop player game inputs
      else
        let '(game, r) := NormalWordleGame.guess_word game guess in
        match r with
        | inl e =>
            let '(out, fin) := game_loop player game inputs in
            (ShownError e :: out, fin)
        | inr rr =>
            if won rr
            then ([ShownResult guess rr],
                  Recorded player (length (NormalWordleGame.history game)) true)
            else if over rr
            then ([ShownResult guess rr],
                  Recorded player (length (NormalWordleGame.history game)) false)
            else
              let '(out, fin) := game_loop player game inputs in
              (ShownResult guess rr :: out, fin)
        end
  end.

(** [main], on the lines of the word list file, the index [random.choice]
    draws and the lines typed; [None] when [random.choice] raises on an
    empty word list. *)
Definition main (lines : list (list ascii)) (pick : nat)
    (inputs : list (list ascii)) : option (list shown * ending) :=
  let wl := load_words lines in
  let cfg := Build_GameConfig 6 wl in
  match wl !! (pick mod length wl)%nat with
  | None => None
  | Some answer =>
      let game := NormalWordleGame.init answer cfg in
      match inputs with
      | [] => Some ([], EndOfInput)
      | name :: inputs =>
          let player := if Str.truthy (Str.strip name) then Str.strip name
                        else py "anon" in
          Some (game_loop player game inputs)
      end
  end.

Definition is_result (s : shown) : bool :=
  match s with ShownResult _ _ => true | ShownError _ => false end.

End Cli.

(** * Properties *)

Example score_crane_crane :
  score_guess (py "crane") (py "crane") = inr [HIT; HIT; HIT; HIT; HIT].
Proof. vm_compute. reflexivity. Qed.

Example score_sassy_grass :
  score_guess (py "sassy") (py "grass") = inr [MISS; MISS; PRESENT; HIT; PRESENT].
Proof. vm_compute. reflexivity. Qed.

Example score_normalizes :
  score_guess (py "crane") (py " ARENA ") = inr [PRESENT; HIT; PRESENT; HIT; MISS].
Proof. vm_compute. reflexivity. Qed.

(** ** Normalisation *)

Lemma is_space_lower_char c : Str.is_space (Str.lower_char c) = Str.is_space c.
Proof. destruct c as [[] [] [] [] [] [] [] []]; reflexivity. Qed.

Lemma lower_char_idem c : Str.lower_char (Str.lower_char c) = Str.lower_char c.
Proof. destruct c as [[] [] [] [] [] [] [] []]; reflexivity. Qed.

Lemma lower_idem w : Str.lower (Str.lower w) = Str.lower w.
Proof.
  unfold Str.lower. rewrite map_map. apply map_ext. intros c. apply lower_char_idem.
Qed.

Lemma lstrip_lower w : Str.lstrip (Str.lower w) = Str.lower (Str.lstrip w).
Proof.
  induction w as [|c w IH]; [done|].
  change (Str.lower (c :: w)) with (Str.lower_char c :: Str.lower w).
  cbn [Str.lstrip]. rewrite is_space_lower_char, IH.
  destruct (Str.is_space c); done.
Qed.

Lemma rstrip_lower w : Str.rstrip (Str.lower w) = Str.lower (Str.rstrip w).
Proof.
  induction w as [|c w IH]; [done|].
  change (Str.lower (c :: w)) with (Str.lower_char c :: Str.lower w).
  cbn [Str.rstrip]. rewrite IH, is_space_lower_char.
  destruct (Str.rstrip w); [|done].
  destruct (Str.is_space c); done.
Qed.

Lemma strip_lower w : Str.strip (Str.lower w) = Str.lower (Str.strip w).
Proof. unfold Str.strip. rewrite lstrip_lower. apply rstrip_lower. Qed.

Lemma rstrip_idem w : Str.rstrip (Str.rstrip w) = Str.rstrip w.
Proof.
  induction w as [|c w IH]; simpl; [done|].
  destruct (Str.rstrip w) as [|d r] eqn:E.
  - destruct (Str.is_space c) eqn:Hc; simpl; [done|]. by rewrite Hc.
  - change (Str.rstrip (c :: d :: r)) with
      (match Str.rstrip (d :: r) with
       | [] => if Str.is_space c then [] else [c]
       | x => c :: x
       end).
    by rewrite IH.
Qed.

Lemma lstrip_head w c w' : Str.lstrip w = c :: w' → Str.is_space c = false.
Proof.
  induction w as [|d w IH]; simpl; [done|].
  destruct (Str.is_space d) eqn:Hd; [done|]. intros [= -> _]. done.
Qed.

Lemma rstrip_head c w : Str.is_space c = false → ∃ r, Str.rstrip (c :: w) = c :: r.
Proof.
  intros Hc. simpl. rewrite Hc. destruct (Str.rstrip w); eauto.
Qed.

Lemma strip_idem w : Str.strip (Str.strip w) = Str.strip w.
Proof.
  unfold Str.strip.
  destruct (Str.lstrip w) as [|c w'] eqn:E; [done|].
  apply lstrip_head in E.
  destruct (rstrip_head c w' E) as [r Hr].
  rewrite Hr. simpl Str.lstrip. rewrite E, <- Hr. apply rstrip_idem.
Qed.

Lemma normalize_idem w : normalize (normalize w) = normalize w.
Proof.
  unfold normalize. by rewrite strip_lower, strip_idem, lower_idem.
Qed.

Lemma normalize_lower w : normalize (Str.lower w) = normalize w.
Proof.
  unfold normalize. by rewrite strip_lower, lower_idem.
Qed.

Lemma lstrip_spaces_app pre w :
  Forall (λ c, Str.is_space c = true) pre → Str.lstrip (pre ++ w) = Str.lstrip w.
Proof. induction 1 as [|c pre Hc _ IH]; [done|]. cbn. by rewrite Hc. Qed.

Lemma rstrip_spaces post :
  Forall (λ c, Str.is_space c = true) post → Str.rstrip post = [].
Proof.
  induction 1 as [|c post Hc _ IH]; [done|]. cbn [Str.rstrip]. by rewrite IH, Hc.
Qed.

Lemma rstrip_app_spaces w post :
  Forall (λ c, Str.is_space c = true) post → Str.rstrip (w ++ post) = Str.rstrip w.
Proof.
  intros Hpost. induction w as [|c w IH]; [by apply rstrip_spaces|].
  change ((c :: w) ++ post) with (c :: (w ++ post)).
  cbn [Str.rstrip]. by rewrite IH.
Qed.

Lemma strip_app_spaces w post :
  Forall (λ c, Str.is_space c = true) post → Str.strip (w ++ post) = Str.strip w.
Proof.
  intros Hpost. unfold Str.strip. induction w as [|c w IH].
  - cbn [app]. rewrite <- (app_nil_r post), lstrip_spaces_app by done. done.
  - change ((c :: w) ++ post) with (c :: (w ++ post)). cbn [Str.lstrip].
    destruct (Str.is_space c); [done|].
    by apply (rstrip_app_spaces (c :: w)).
Qed.

(** Whitespace around a string does not show in its stripped form. *)
Lemma strip_padded pre w post :
  Forall (λ c, Str.is_space c = true) pre →
  Forall (λ c, Str.is_space c = true) post →
  Str.strip (pre ++ w ++ post) = Str.strip w.
Proof.
  intros Hpre Hpost. rewrite <- (strip_app_spaces w post Hpost).
  unfold Str.strip. by rewrite lstrip_spaces_app.
Qed.

(** Padding with whitespace and changing the case of letters do not show
    in the normal form. *)
Lemma normalize_padded_recased pre w w' post :
  Forall (λ c, Str.is_space c = true) pre →
  Forall (λ c, Str.is_space c = true) post →
  Str.lower w' = Str.lower w →
  normalize (pre ++ w' ++ post) = normalize w.
Proof.
  intros Hpre Hpost Hcase. unfold normalize.
  by rewrite strip_padded, <- !strip_lower, Hcase.
Qed.

(** C10: the scorer normalises both arguments itself. Scoring two strings
    and scoring their normalised forms agree, on the pattern as well as on
    the length error; and the score of [t] and [g] is also the score of any
    two strings that differ from them only in the case of letters and in
    whitespace put before or after. *)
Theorem score_guess_normalize (t g : list ascii)
    (pre post pre' post' t' g' : list ascii) :
  Forall (λ c, Str.is_space c = true) pre →
  Forall (λ c, Str.is_space c = true) post →
  Forall (λ c, Str.is_space c = true) pre' →
  Forall (λ c, Str.is_space c = true) post' →
  Str.lower t' = Str.lower t →
  Str.lower g' = Str.lower g →
  score_guess t g = score_guess (normalize t) (normalize g) ∧
  score_guess (pre ++ t' ++ post) (pre' ++ g' ++ post') = score_guess t g.
Proof.
  intros Hpre Hpost Hpre' Hpost' Ht Hg. split.
  - unfold score_guess. by rewrite !normalize_idem.
  - unfold score_guess.
    by rewrite (normalize_padded_recased pre t t' post),
               (normalize_padded_recased pre' g g' post').
Qed.

Lemma score_guess_normalize_witness :
  let tab := ["009"%char] in
  let newline := ["010"%char] in
  Forall (λ c, Str.is_space c = true) (py "  ") ∧
  Forall (λ c, Str.is_space c = true) newline ∧
  Forall (λ c, Str.is_space c = true) tab ∧
  Forall (λ c, Str.is_space c = true) [] ∧
  Str.lower (py "CrAnE") = Str.lower (py "crane") ∧
  Str.lower (py "ARENA") = Str.lower (py "arena") ∧
  score_guess (py "crane") (py "arena")
  = score_guess (normalize (py "crane")) (normalize (py "arena")) ∧
  score_guess (py "  " ++ py "CrAnE" ++ newline) (tab ++ py "ARENA" ++ [])
  = score_guess (py "crane") (py "arena") ∧
  score_guess (py "crane") (py "arena") = inr [PRESENT; HIT; PRESENT; HIT; MISS].
Proof.
  intros tab newline.
  assert (Forall (λ c, Str.is_space c = true) (py "  ")) as H1
    by (repeat constructor).
  assert (Forall (λ c, Str.is_space c = true) newline) as H2
    by (repeat constructor).
  assert (Forall (λ c, Str.is_space c = true) tab) as H3
    by (repeat constructor).
  assert (Forall (λ c, Str.is_space c = true) []) as H4 by constructor.
  split; [exact H1|]. split; [exact H2|]. split; [exact H3|]. split; [exact H4|].
  split; [reflexivity|]. split; [reflexivity|].
  destruct (score_guess_normalize (py "crane") (py "arena") (py "  ") newline tab []
              (py "CrAnE") (py "ARENA") H1 H2 H3 H4 eq_refl eq_refl) as [Hn Hs].
  split; [exact Hn|]. split; [exact Hs|]. vm_compute. reflexivity.
Defined.

(** C8, as the spec states it, fails: the target "crane" and the guess
    "arena" agree at positions 1 and 3. *)
Lemma crane_arena_not_all_present :
  score_guess (py "crane") (py "arena")
  ≠ inr [PRESENT; PRESENT; PRESENT; PRESENT; PRESENT].
Proof. vm_compute. discriminate. Qed.

(** C8, amended: scoring the target "crane" against the guess "arena"
    yields PRESENT, HIT, PRESENT, HIT, MISS. *)
Theorem score_crane_arena_pattern :
  score_guess (py "crane") (py "arena") = inr [PRESENT; HIT; PRESENT; HIT; MISS].
Proof. vm_compute. reflexivity. Qed.

(** ** The scorer's loops *)

Lemma get0_insert (m : gmap ascii Z) k v c :
  get0 (<[k:=v]> m) c = if decide (k = c) then v else get0 m c.
Proof.
  unfold get0. rewrite lookup_insert. by destruct (decide (k = c)).
Qed.

Lemma get0_empty c : get0 ∅ c = 0.
Proof. unfold get0. by rewrite lookup_empty. Qed.

Lemma at_middle (p s : list ascii) x : at_ (p ++ x :: s) (length p) = x.
Proof. unfold at_. apply nth_middle. Qed.

Lemma first_pass_foldl (a g : list ascii) :
  ∀ a' g' pa pg pre remain,
    a = pa ++ a' → g = pg ++ g' →
    length pa = length pre → length pg = length pre → length a' = length g' →
    foldl (first_pass a g) (pre ++ replicate (length a') MISS, remain)
          (seq (length pre) (length a'))
    = (pre ++ (first_loop a' g' remain).1, (first_loop a' g' remain).2).
Proof.
  induction a' as [|x a' IH]; intros g' pa pg pre remain Ha Hg Hpa Hpg Hlen.
  { destruct g'; done. }
  destruct g' as [|y g']; [done|].
  injection Hlen as Hlen.
  cbn [length seq foldl replicate first_loop].
  assert (at_ a (length pre) = x) as Hx by (rewrite <- Hpa, Ha; apply at_middle).
  assert (at_ g (length pre) = y) as Hy by (rewrite <- Hpg, Hg; apply at_middle).
  unfold first_pass at 2. rewrite Hx, Hy.
  destruct (decide (y = x)) as [->|Hne].
  - replace (<[length pre:=HIT]> (pre ++ MISS :: replicate (length a') MISS))
      with ((pre ++ [HIT]) ++ replicate (length a') MISS).
    2:{ rewrite <- (Nat.add_0_r (length pre)), insert_app_r.
        by rewrite <- app_assoc. }
    replace (S (length pre)) with (length (pre ++ [HIT]))
      by (rewrite length_app; simpl; lia).
    rewrite (IH g' (pa ++ [x]) (pg ++ [x]) (pre ++ [HIT]) remain).
    + cbn [fst snd]. by rewrite <- app_assoc.
    + by rewrite <- app_assoc.
    + by rewrite <- app_assoc.
    + rewrite !length_app. simpl. lia.
    + rewrite !length_app. simpl. lia.
    + done.
  - replace (pre ++ MISS :: replicate (length a') MISS)
      with ((pre ++ [MISS]) ++ replicate (length a') MISS)
      by (by rewrite <- app_assoc).
    replace (S (length pre)) with (length (pre ++ [MISS]))
      by (rewrite length_app; simpl; lia).
    rewrite (IH g' (pa ++ [x]) (pg ++ [y]) (pre ++ [MISS])
               (<[x:=get0 remain x + 1]> remain)).
    + cbn [fst snd]. by rewrite <- app_assoc.
    + by rewrite <- app_assoc.
    + by rewrite <- app_assoc.
    + rewrite !length_app. simpl. lia.
    + rewrite !length_app. simpl. lia.
    + done.
Qed.

Lemma second_pass_foldl (g : list ascii) :
  ∀ res g' pg pre remain,
    g = pg ++ g' → length pg = length pre → length res = length g' →
    foldl (second_pass g) (pre ++ res, remain) (seq (length pre) (length res))
    = (pre ++ (second_loop g' res remain).1, (second_loop g' res remain).2).
Proof.
  induction res as [|t res IH]; intros g' pg pre remain Hg Hpg Hlen.
  { destruct g'; done. }
  destruct g' as [|y g']; [done|].
  injection Hlen as Hlen.
  cbn [length seq foldl second_loop].
  assert (at_ g (length pre) = y) as Hy by (rewrite <- Hpg, Hg; apply at_middle).
  unfold second_pass at 2. rewrite Hy, list_lookup_middle by done.
  assert (∀ u rm,
    foldl (second_pass g) (pre ++ u :: res, rm) (seq (S (length pre)) (length res))
    = (pre ++ u :: (second_loop g' res rm).1, (second_loop g' res rm).2)) as Hnext.
  { intros u rm.
    replace (S (length pre)) with (length (pre ++ [u]))
      by (rewrite length_app; simpl; lia).
    rewrite (cons_middle u pre res), (cons_middle u pre (second_loop g' res rm).1).
    rewrite !app_assoc.
    apply (IH g' (pg ++ [y])); [by rewrite <- app_assoc| |done].
    rewrite !length_app. simpl. lia. }
  destruct (decide (Some t = Some HIT)) as [[= ->]|Hne].
  - rewrite decide_True by done. apply Hnext.
  - destruct (decide (t = HIT)) as [->|_]; [done|].
    destruct (decide (0 < get0 remain y)); [|apply Hnext].
    rewrite <- (Nat.add_0_r (length pre)) at 1. rewrite insert_app_r.
    apply Hnext.
Qed.

(** ** Counting letters *)

Lemma occurrences_cons c x t :
  occurrences c (x :: t) = ((if decide (x = c) then 1 else 0) + occurrences c t)%nat.
Proof.
  unfold occurrences. rewrite filter_cons. by case_decide.
Qed.

Lemma marked_cons tok c y g t r :
  marked tok c (y :: g) (t :: r)
  = ((if decide (y = c ∧ t = tok) then 1 else 0) + marked tok c g r)%nat.
Proof.
  unfold marked. cbn [zip zip_with]. rewrite filter_cons. cbn [fst snd].
  by repeat case_decide.
Qed.

Lemma credited_count_cons c y g t r :
  credited_count c (y :: g) (t :: r)
  = ((if decide (y = c ∧ (t = HIT ∨ t = PRESENT)) then 1 else 0)
     + credited_count c g r)%nat.
Proof.
  unfold credited_count. cbn [zip zip_with]. rewrite filter_cons. cbn [fst snd].
  by repeat case_decide.
Qed.

(** ** What the first loop leaves behind *)

Lemma first_loop_length a : ∀ g remain,
  length a = length g → length (first_loop a g remain).1 = length a.
Proof.
  induction a as [|x a IH]; intros [|y g] remain Hlen; try done.
  injection Hlen as Hlen. cbn [first_loop].
  case_decide; cbn [fst length]; by rewrite IH.
Qed.

Lemma first_loop_hit a : ∀ g remain i,
  length a = length g →
  (first_loop a g remain).1 !! i = Some HIT
  ↔ ∃ x, a !! i = Some x ∧ g !! i = Some x.
Proof.
  induction a as [|x a IH]; intros [|y g] remain i Hlen; try done.
  { cbn. split; [done|]. by intros (? & ? & ?). }
  injection Hlen as Hlen. cbn [first_loop].
  case_decide as Hxy; cbn [fst]; destruct i as [|i]; cbn [lookup list_lookup].
  - subst. split; eauto.
  - by apply IH.
  - split; [done|]. intros (? & [= <-] & [= ?]). congruence.
  - by apply IH.
Qed.

Lemma first_loop_no_present a : ∀ g remain,
  Forall (λ t, t ≠ PRESENT) (first_loop a g remain).1.
Proof.
  induction a as [|x a IH]; intros [|y g] remain; cbn [first_loop fst]; try done.
  case_decide; cbn [fst]; constructor; auto.
Qed.

Lemma first_loop_nonneg a : ∀ g remain,
  (∀ c, 0 ≤ get0 remain c) → ∀ c, 0 ≤ get0 (first_loop a g remain).2 c.
Proof.
  induction a as [|x a IH]; intros [|y g] remain Hpos c; cbn [first_loop snd]; try done.
  case_decide; cbn [snd]; apply IH; [done|].
  intros d. rewrite get0_insert. case_decide; [|done].
  specialize (Hpos x). lia.
Qed.

(** Every target letter is either taken by a hit or added to [remain]. *)
Lemma first_loop_count a : ∀ g remain c,
  length a = length g →
  get0 (first_loop a g remain).2 c + Z.of_nat (marked HIT c g (first_loop a g remain).1)
  = get0 remain c + Z.of_nat (occurrences c a).
Proof.
  induction a as [|x a IH]; intros [|y g] remain c Hlen; try done.
  injection Hlen as Hlen. cbn [first_loop].
  case_decide as Hxy; cbn [fst snd]; rewrite marked_cons, occurrences_cons.
  - subst y. specialize (IH g remain c Hlen).
    repeat case_decide; try naive_solver; lia.
  - specialize (IH g (<[x:=get0 remain x + 1]> remain) c Hlen).
    rewrite get0_insert in IH.
    repeat case_decide; try naive_solver; subst; lia.
Qed.

(** ** What the second loop does to it *)

Lemma second_loop_length g : ∀ res remain,
  length g = length res → length (second_loop g res remain).1 = length res.
Proof.
  induction g as [|y g IH]; intros [|t res] remain Hlen; try done.
  injection Hlen as Hlen. cbn [second_loop].
  repeat case_decide; cbn [fst length]; by rewrite IH.
Qed.

Lemma second_loop_hit g : ∀ res remain i,
  length g = length res →
  (second_loop g res remain).1 !! i = Some HIT ↔ res !! i = Some HIT.
Proof.
  induction g as [|y g IH]; intros [|t res] remain i Hlen; try done.
  injection Hlen as Hlen. cbn [second_loop].
  repeat case_decide; cbn [fst]; destruct i as [|i]; cbn [lookup list_lookup];
    try (by apply IH); try done.
  split; intros [= ?]; congruence.
Qed.

Lemma second_loop_nonneg g : ∀ res remain,
  (∀ c, 0 ≤ get0 remain c) → ∀ c, 0 ≤ get0 (second_loop g res remain).2 c.
Proof.
  induction g as [|y g IH]; intros [|t res] remain Hpos c; cbn [second_loop snd]; try done.
  repeat case_decide; cbn [snd]; apply IH; try done.
  intros d. rewrite get0_insert. case_decide; [lia|done].
Qed.

(** Every PRESENT the second loop writes is paid for out of [remain]. *)
Lemma second_loop_count g : ∀ res remain c,
  length g = length res →
  Forall (λ t, t ≠ PRESENT) res →
  Z.of_nat (credited_count c g (second_loop g res remain).1)
  + get0 (second_loop g res remain).2 c
  = Z.of_nat (marked HIT c g res) + get0 remain c.
Proof.
  induction g as [|y g IH]; intros [|t res] remain c Hlen Hres; try done.
  injection Hlen as Hlen. apply Forall_cons in Hres as [Ht Hres].
  cbn [second_loop].
  case_decide as Hhit; [|case_decide as Hpos]; cbn [fst snd];
    rewrite credited_count_cons, marked_cons.
  - specialize (IH res remain c Hlen Hres).
    repeat case_decide; try naive_solver; lia.
  - specialize (IH res (<[y:=get0 remain y - 1]> remain) c Hlen Hres).
    rewrite get0_insert in IH.
    repeat case_decide; try naive_solver; subst; lia.
  - specialize (IH res remain c Hlen Hres).
    repeat case_decide; try naive_solver; lia.
Qed.

(** The scorer on two words of one length, through the two loops. *)
Lemma score_guess_loops (t g : list ascii) :
  length (normalize t) = length (normalize g) →
  score_guess t g
  = inr (second_loop (normalize g)
           (first_loop (normalize t) (normalize g) ∅).1
           (first_loop (normalize t) (normalize g) ∅).2).1.
Proof.
  intros Hlen. unfold score_guess.
  rewrite decide_False by (by intros ?).
  pose proof (first_pass_foldl (normalize t) (normalize g)
                (normalize t) (normalize g) [] [] [] ∅) as H1.
  cbn [app length] in H1. rewrite H1 by done. clear H1.
  pose proof (second_pass_foldl (normalize g)
                (first_loop (normalize t) (normalize g) ∅).1
                (normalize g) [] []
                (first_loop (normalize t) (normalize g) ∅).2) as H2.
  cbn [app length] in H2.
  assert (length (first_loop (normalize t) (normalize g) ∅).1
          = length (normalize t)) as Hl by (by apply first_loop_length).
  rewrite Hl in H2. rewrite H2; [done..|]. congruence.
Qed.

(** C1: for normalised words [t] and [g] of one length the scorer returns
    a pattern (of that length) whose HIT tokens stand exactly at the
    positions where the two words agree, and for every letter [c] the
    guess positions holding [c] whose token is HIT or PRESENT are at most
    as many as the occurrences of [c] in [t]. *)
Theorem score_guess_hits_and_multiplicity (t g : list ascii) :
  normalize t = t → normalize g = g → length t = length g →
  ∃ pat,
    score_guess t g = inr pat ∧
    length pat = length t ∧
    (∀ i, pat !! i = Some HIT ↔ ∃ x, t !! i = Some x ∧ g !! i = Some x) ∧
    (∀ c, (credited_count c g pat ≤ occurrences c t)%nat).
Proof.
  intros Ht Hg Hlen. eexists. split.
  { apply score_guess_loops. by rewrite Ht, Hg. }
  rewrite Ht, Hg.
  assert (length g = length (first_loop t g ∅).1) as Hlen1
    by (by rewrite first_loop_length).
  split; [|split].
  - by rewrite second_loop_length, first_loop_length.
  - intros i. rewrite second_loop_hit by done. by apply first_loop_hit.
  - intros c.
    pose proof (second_loop_count g (first_loop t g ∅).1 (first_loop t g ∅).2 c
                  Hlen1 (first_loop_no_present t g ∅)) as H2.
    pose proof (first_loop_count t g ∅ c Hlen) as H1.
    assert (∀ d, 0 ≤ get0 (first_loop t g ∅).2 d) as Hpos.
    { apply first_loop_nonneg. intros d. by rewrite get0_empty. }
    pose proof (second_loop_nonneg g (first_loop t g ∅).1 (first_loop t g ∅).2
                  Hpos c) as H3.
    rewrite get0_empty in H1. lia.
Qed.

Lemma score_guess_hits_and_multiplicity_witness :
  normalize (py "sassy") = py "sassy" ∧ normalize (py "grass") = py "grass" ∧
  length (py "sassy") = length (py "grass") ∧
  ∃ pat,
    score_guess (py "sassy") (py "grass") = inr pat ∧
    length pat = length (py "sassy") ∧
    (∀ i, pat !! i = Some HIT
          ↔ ∃ x, py "sassy" !! i = Some x ∧ py "grass" !! i = Some x) ∧
    (∀ c, (credited_count c (py "grass") pat ≤ occurrences c (py "sassy"))%nat).
Proof.
  split; [reflexivity|]. split; [reflexivity|]. split; [reflexivity|].
  apply (score_guess_hits_and_multiplicity (py "sassy") (py "grass"));
    reflexivity.
Defined.

(** ** The standard game *)

Lemma score_guess_same_length (t g : list ascii) :
  length (normalize t) = length (normalize g) →
  ∃ pat, score_guess t g = inr pat ∧ length pat = length (normalize t).
Proof.
  intros Hlen. eexists. split; [by apply score_guess_loops|].
  rewrite second_loop_length; rewrite first_loop_length; done.
Qed.

Lemma score_guess_length_mismatch (t g : list ascii) :
  length (normalize t) ≠ length (normalize g) →
  score_guess t g = inl (ValueError "Guess length must match the answer length.").
Proof. intros Hlen. unfold score_guess. by rewrite decide_True. Qed.

Lemma forallb_all_hit (pat : list token) :
  forallb (λ t, bool_decide (t = HIT)) pat = true ↔ Forall (λ t, t = HIT) pat.
Proof.
  rewrite forallb_forall, Forall_forall. split; intros H t Ht.
  - apply (bool_decide_eq_true_1 _), H. by apply list_elem_of_In.
  - apply bool_decide_eq_true_2, H. by apply list_elem_of_In.
Qed.

(** A call whose word passes both checks, on an instance whose answer is
    normalised as [__init__] leaves it. *)
Lemma normal_guess_word_legal (self : NormalWordleGame.t) (word : list ascii) :
  normalize (NormalWordleGame.answer self) = NormalWordleGame.answer self →
  length (normalize word) = length (NormalWordleGame.answer self) →
  normalize word ∈ word_list (NormalWordleGame.cfg self) →
  ∃ pat,
    score_guess (NormalWordleGame.answer self) (normalize word) = inr pat ∧
    let round' := NormalWordleGame.round self + 1 in
    let won := forallb (λ t, bool_decide (t = HIT)) pat in
    let rr := Build_RoundResult (normalize word) pat
                (max_rounds (NormalWordleGame.cfg self) - round') won
                (won || bool_decide (max_rounds (NormalWordleGame.cfg self) ≤ round')) in
    NormalWordleGame.guess_word self word
    = (NormalWordleGame.mk (NormalWordleGame.answer self) (NormalWordleGame.cfg self)
         round' (NormalWordleGame.history self ++ [rr]), inr rr).
Proof.
  intros Hans Hlen Hin.
  destruct (score_guess_same_length (NormalWordleGame.answer self) (normalize word))
    as (pat & Hpat & _).
  { by rewrite Hans, normalize_idem. }
  exists pat. split; [done|].
  unfold NormalWordleGame.guess_word.
  rewrite decide_False by (by intros ?).
  rewrite decide_False by (by intros ?).
  cbn [NormalWordleGame.answer NormalWordleGame.cfg NormalWordleGame.round
       NormalWordleGame.history].
  by rewrite Hpat.
Qed.

(** A call whose word fails a check leaves the instance alone. *)
Lemma normal_guess_word_rejected (self : NormalWordleGame.t) (word : list ascii) :
  normalize word ∉ word_list (NormalWordleGame.cfg self) →
  NormalWordleGame.guess_word self word
  = (self, inl (ValueError
       (if decide (length (normalize word) = length (NormalWordleGame.answer self))
        then "Word not found in dictionary."
        else "Guess must be same length as answer."))).
Proof.
  intros Hnin. unfold NormalWordleGame.guess_word.
  destruct (decide (length (normalize word) = length (NormalWordleGame.answer self)))
    as [Heq|Hne].
  - rewrite decide_False by (by intros ?). by rewrite decide_True.
  - by rewrite decide_True.
Qed.

(** What every call preserves, whatever its outcome. *)
Lemma normal_guess_word_frame (self : NormalWordleGame.t) (word : list ascii) :
  NormalWordleGame.answer (NormalWordleGame.guess_word self word).1
  = NormalWordleGame.answer self ∧
  NormalWordleGame.cfg (NormalWordleGame.guess_word self word).1
  = NormalWordleGame.cfg self.
Proof.
  unfold NormalWordleGame.guess_word.
  destruct (decide (length _ ≠ length _)); [done|].
  destruct (decide (_ ∉ _)); [done|].
  cbn zeta. cbn [NormalWordleGame.answer].
  destruct (score_guess _ _); done.
Qed.

Lemma normal_init_inv answer cfg : normal_inv (NormalWordleGame.init answer cfg).
Proof. split; [apply normalize_idem|done]. Qed.

Lemma normal_guess_word_inv self word :
  normal_inv self → normal_inv (NormalWordleGame.guess_word self word).1.
Proof.
  intros [Hans Hlen].
  destruct (decide (normalize word ∈ word_list (NormalWordleGame.cfg self))) as [Hin|Hnin];
    [|by rewrite normal_guess_word_rejected].
  destruct (decide (length (normalize word) = length (NormalWordleGame.answer self)))
    as [Heq|Hne].
  - destruct (normal_guess_word_legal self word Hans Heq Hin) as (pat & _ & ->).
    split; cbn [fst NormalWordleGame.answer NormalWordleGame.history
                NormalWordleGame.round]; [done|].
    rewrite length_app. cbn [length]. lia.
  - unfold NormalWordleGame.guess_word. by rewrite decide_True.
Qed.

Lemma normal_play_cons self w ws :
  NormalWordleGame.play self (w :: ws)
  = ((NormalWordleGame.play (NormalWordleGame.guess_word self w).1 ws).1,
     (NormalWordleGame.guess_word self w).2
     :: (NormalWordleGame.play (NormalWordleGame.guess_word self w).1 ws).2).
Proof.
  cbn [NormalWordleGame.play].
  destruct (NormalWordleGame.guess_word self w) as [s r]. cbn [fst snd].
  destruct (NormalWordleGame.play s ws). reflexivity.
Qed.

Lemma normal_play_inv ws : ∀ self,
  normal_inv self → normal_inv (NormalWordleGame.play self ws).1.
Proof.
  induction ws as [|w ws IH]; intros self Hinv; [done|].
  rewrite normal_play_cons. cbn [fst]. by apply IH, normal_guess_word_inv.
Qed.

Lemma normal_play_frame ws : ∀ self,
  NormalWordleGame.answer (NormalWordleGame.play self ws).1 = NormalWordleGame.answer self ∧
  NormalWordleGame.cfg (NormalWordleGame.play self ws).1 = NormalWordleGame.cfg self.
Proof.
  induction ws as [|w ws IH]; intros self; [done|].
  rewrite normal_play_cons. cbn [fst].
  destruct (IH (NormalWordleGame.guess_word self w).1) as [-> ->].
  apply normal_guess_word_frame.
Qed.

(** C4: on a standard game (built by the constructor, after any calls), a
    guess whose normalised form has the answer's length and is in the word
    list makes [guess_word] return a RoundResult; the round counter is one
    more than before, the tokens are the scorer's pattern against the
    answer, [won] holds exactly when every token is HIT, [over] is
    [won or round >= max_rounds], [remaining] is [max_rounds - round], the
    result is appended to the history, and the history is as long as the
    round counter says. *)
Theorem normal_guess_word_effect
    (answer : list ascii) (cfg : GameConfig) (earlier : list (list ascii))
    (word : list ascii) :
  let self := (NormalWordleGame.play (NormalWordleGame.init answer cfg) earlier).1 in
  length (normalize word) = length (NormalWordleGame.answer self) →
  normalize word ∈ word_list cfg →
  ∃ self' rr,
    NormalWordleGame.guess_word self word = (self', inr rr) ∧
    NormalWordleGame.round self' = NormalWordleGame.round self + 1 ∧
    NormalWordleGame.answer self' = normalize answer ∧
    NormalWordleGame.cfg self' = cfg ∧
    guess rr = normalize word ∧
    score_guess (normalize answer) (normalize word) = inr (tokens rr) ∧
    (won rr = true ↔ Forall (λ t, t = HIT) (tokens rr)) ∧
    over rr = won rr || bool_decide (max_rounds cfg ≤ NormalWordleGame.round self') ∧
    remaining rr = max_rounds cfg - NormalWordleGame.round self' ∧
    NormalWordleGame.history self' = NormalWordleGame.history self ++ [rr] ∧
    Z.of_nat (length (NormalWordleGame.history self')) = NormalWordleGame.round self'.
Proof.
  intros self Hlen Hin.
  destruct (normal_play_frame earlier (NormalWordleGame.init answer cfg)) as [Hans Hcfg].
  fold self in Hans, Hcfg. cbn in Hans, Hcfg.
  destruct (normal_play_inv earlier _ (normal_init_inv answer cfg)) as [Hnorm Hhist].
  fold self in Hnorm, Hhist.
  rewrite <- Hcfg in Hin.
  destruct (normal_guess_word_legal self word Hnorm Hlen Hin) as (pat & Hpat & Hcall).
  cbn zeta in Hcall. rewrite Hcall, Hcfg, Hans in *.
  do 2 eexists. split; [done|].
  cbn [NormalWordleGame.round NormalWordleGame.answer NormalWordleGame.cfg
       NormalWordleGame.history guess tokens won over remaining].
  repeat split; try done; try (by apply forallb_all_hit).
  rewrite length_app. cbn [length]. lia.
Qed.

Lemma normal_guess_word_effect_witness :
  let self := (NormalWordleGame.play (NormalWordleGame.init (py " Crane") CFG_crane)
                 [py "slate"; py "zzzzz"]).1 in
  length (normalize (py "ARENA ")) = length (NormalWordleGame.answer self) ∧
  normalize (py "ARENA ") ∈ word_list CFG_crane ∧
  ∃ self' rr,
    NormalWordleGame.guess_word self (py "ARENA ") = (self', inr rr) ∧
    NormalWordleGame.round self' = NormalWordleGame.round self + 1 ∧
    score_guess (normalize (py " Crane")) (normalize (py "ARENA ")) = inr (tokens rr) ∧
    remaining rr = max_rounds CFG_crane - NormalWordleGame.round self' ∧
    Z.of_nat (length (NormalWordleGame.history self')) = NormalWordleGame.round self'.
Proof.
  assert (normalize (py "ARENA ") ∈ word_list CFG_crane) as Hin
    by (vm_compute; set_solver).
  split; [reflexivity|]. split; [exact Hin|].
  destruct (normal_guess_word_effect (py " Crane") CFG_crane
              [py "slate"; py "zzzzz"] (py "ARENA ") eq_refl Hin)
    as (self' & rr & Hcall & Hround & _ & _ & _ & Htok & _ & _ & Hrem & _ & Hlen).
  exists self', rr. repeat split; assumption.
Defined.

(** ** The multiplayer guess branch *)

Lemma discard_all (streams : gset conn) (dead : list conn) :
  foldl (λ s d, s ∖ {[d]}) streams dead = streams ∖ list_to_set dead.
Proof.
  revert streams. induction dead as [|d dead IH]; intros streams; cbn [foldl].
  - set_solver.
  - rewrite IH. set_solver.
Qed.

Lemma broadcast_streams fails room msg :
  MultiRoom.streams (broadcast fails room msg).1
  = survivors fails msg (MultiRoom.streams room).
Proof.
  unfold broadcast, survivors. cbn [fst MultiRoom.streams]. rewrite discard_all.
  apply set_eq. intros h.
  rewrite elem_of_difference, elem_of_list_to_set, list_elem_of_filter,
    elem_of_filter, elem_of_elements.
  destruct (fails h msg); naive_solver.
Qed.

Lemma broadcast_writes fails room msg :
  (broadcast fails room msg).2
  = map (λ h, (h, msg)) (elements (MultiRoom.streams room)).
Proof. done. Qed.

Lemma broadcast_frame fails room msg :
  MultiRoom.game (broadcast fails room msg).1 = MultiRoom.game room ∧
  MultiRoom.over (broadcast fails room msg).1 = MultiRoom.over room ∧
  MultiRoom.players (broadcast fails room msg).1 = MultiRoom.players room ∧
  MultiRoom.answer (broadcast fails room msg).1 = MultiRoom.answer room.
Proof. done. Qed.

(** Attaching the requesting handler, the first step of the branch. *)
Lemma attach_streams (streams : gset conn) (self : conn) :
  (if decide (self ∉ streams) then streams ∪ {[self]} else streams)
  = streams ∪ {[self]}.
Proof.
  destruct (decide (self ∉ streams)) as [|Hin]; [done|].
  apply dec_stable in Hin. set_solver.
Qed.

(** C5, as the spec states it, fails on the error raised: a word that is
    not in the list and has another length than the answer is rejected by
    the length check, which comes first. *)
Lemma short_illegal_word_not_IllegalWord :
  (normalize (py "zz") ∉ word_list CFG_crane) ∧
  (NormalWordleGame.guess_word (NormalWordleGame.init (py "crane") CFG_crane)
     (py "zz")).2 ≠ inl IllegalWord.
Proof.
  split.
  - vm_compute. set_solver.
  - vm_compute. discriminate.
Qed.

(** C5, amended: a guess that is not in the word list makes
    [NormalWordleGame.guess_word] raise, IllegalWord when the normalised
    guess has the answer's length and the length error otherwise, and the
    instance (round, history) is left as it was; in a room, such a guess
    and any guess once the room is over write one rejection, to the
    requesting connection only, and leave the game and the room's [over]
    flag as they were. *)
Theorem rejected_guess_has_no_effect :
  (∀ (self : NormalWordleGame.t) (word : list ascii),
     normalize word ∉ word_list (NormalWordleGame.cfg self) →
     NormalWordleGame.guess_word self word
     = (self, inl (if decide (length (normalize word)
                              = length (NormalWordleGame.answer self))
                   then IllegalWord else InvalidInput))) ∧
  (∀ fails (room : MultiRoom.t) (self : conn) (word : list ascii) (player : string),
     MultiRoom.over room = true
     ∨ normalize (Str.lower word)
       ∉ word_list (NormalWordleGame.cfg (MultiRoom.game room)) →
     ∃ error room',
       handle_guess fails room self word player = (room', [(self, Rejection error)]) ∧
       MultiRoom.game room' = MultiRoom.game room ∧
       MultiRoom.over room' = MultiRoom.over room ∧
       MultiRoom.players room' = MultiRoom.players room ∧
       MultiRoom.streams room' = MultiRoom.streams room ∪ {[self]}).
Proof.
  split.
  { intros self word Hnin. rewrite normal_guess_word_rejected by done.
    by case_decide. }
  intros fails room self word player Hrej.
  unfold handle_guess.
  set (room1 := if decide (self ∉ MultiRoom.streams room) then _ else room).
  assert (MultiRoom.game room1 = MultiRoom.game room ∧
          MultiRoom.over room1 = MultiRoom.over room ∧
          MultiRoom.players room1 = MultiRoom.players room ∧
          MultiRoom.streams room1 = MultiRoom.streams room ∪ {[self]})
    as (Hg & Ho & Hp & Hs).
  { subst room1. pose proof (attach_streams (MultiRoom.streams room) self) as Ha.
    case_decide; cbn [MultiRoom.game MultiRoom.over MultiRoom.players
                      MultiRoom.streams]; done. }
  destruct (MultiRoom.over room1) eqn:Hover.
  { do 2 eexists. split; [reflexivity|]. by rewrite <- Ho. }
  destruct Hrej as [Hrej|Hnin]; [congruence|].
  rewrite Hg, normal_guess_word_rejected by done.
  do 2 eexists. split; [reflexivity|].
  cbn [MultiRoom.game MultiRoom.over MultiRoom.players MultiRoom.streams].
  by rewrite <- Ho.
Qed.

Lemma rejected_guess_has_no_effect_witness :
  (normalize (py "zzzzz") ∉ word_list CFG_crane) ∧
  NormalWordleGame.guess_word (NormalWordleGame.init (py "crane") CFG_crane) (py "zzzzz")
  = (NormalWordleGame.init (py "crane") CFG_crane, inl IllegalWord) ∧
  ∃ error room',
    handle_guess (λ _ _, false) room_crane 3%nat (py "ZZZZZ") "bob"
    = (room', [(3%nat, Rejection error)]) ∧
    MultiRoom.game room' = MultiRoom.game room_crane ∧
    MultiRoom.over room' = MultiRoom.over room_crane.
Proof.
  assert (normalize (py "zzzzz") ∉ word_list CFG_crane) as Hnin
    by (vm_compute; set_solver).
  split; [exact Hnin|]. split.
  - exact (proj1 rejected_guess_has_no_effect
             (NormalWordleGame.init (py "crane") CFG_crane) (py "zzzzz") Hnin).
  - destruct (proj2 rejected_guess_has_no_effect (λ _ _, false) room_crane 3%nat
                (py "ZZZZZ") "bob"%string (or_intror Hnin))
      as (error & room' & Hcall & Hg & Ho & _).
    exists error, room'. repeat split; assumption.
Defined.

(** C9: for an accepted guess the branch writes, in this order, the ack
    to the guessing connection, the "guess" event to every connection of
    the room, and, when the guess is credited as a win, the "game_over"
    event to every connection the first broadcast left attached; nothing
    else is written. *)
Theorem accepted_guess_write_order fails (room : MultiRoom.t) (self : conn)
    (word : list ascii) (player : string)
    (game' : NormalWordleGame.t) (rr : RoundResult) :
  MultiRoom.over room = false →
  NormalWordleGame.guess_word (MultiRoom.game room) (Str.lower word) = (game', inr rr) →
  let data := Build_guess_data player (tokens rr) (won rr) (over rr) (remaining rr) in
  let everyone := MultiRoom.streams room ∪ {[self]} in
  let win := credited (if won rr then Some player else None) in
  (handle_guess fails room self word player).2
  = [(self, Ack data)]
    ++ map (λ h, (h, GuessEvent data)) (elements everyone)
    ++ (if win
        then map (λ h, (h, GameOver player))
                 (elements (survivors fails (GuessEvent data) everyone))
        else []) ∧
  MultiRoom.over (handle_guess fails room self word player).1 = win.
Proof.
  intros Hover Hcall data everyone win.
  unfold handle_guess.
  set (room1 := if decide (self ∉ MultiRoom.streams room) then _ else room).
  assert (MultiRoom.game room1 = MultiRoom.game room ∧
          MultiRoom.over room1 = false ∧
          MultiRoom.streams room1 = everyone)
    as (Hg & Ho & Hs).
  { subst room1 everyone.
    pose proof (attach_streams (MultiRoom.streams room) self) as Ha.
    case_decide; cbn [MultiRoom.game MultiRoom.over MultiRoom.streams]; done. }
  rewrite Ho, Hg, Hcall.
  cbn [MultiRoom.over MultiRoom.game MultiRoom.streams MultiRoom.players
       MultiRoom.answer negb]. rewrite andb_true_r. fold data. fold win.
  destruct win eqn:Hwin.
  - set (room2 := MultiRoom.mk _ _ _ _ true).
    destruct (broadcast fails room2 (GuessEvent data)) as [room3 w2] eqn:Hb2.
    pose proof (broadcast_streams fails room2 (GuessEvent data)) as Hs3.
    pose proof (broadcast_writes fails room2 (GuessEvent data)) as Hw2.
    pose proof (broadcast_frame fails room2 (GuessEvent data)) as (_ & Ho3 & _).
    rewrite Hb2 in Hs3, Hw2, Ho3. cbn [fst snd] in Hs3, Hw2, Ho3.
    subst room2. cbn [MultiRoom.streams MultiRoom.over] in Hs3, Hw2, Ho3.
    rewrite Hs in Hs3, Hw2.
    destruct (broadcast fails room3 (GameOver (default ""%string
                (if won rr then Some player else None)))) as [room4 w3] eqn:Hb3.
    pose proof (broadcast_writes fails room3 (GameOver (default ""%string
                (if won rr then Some player else None)))) as Hw3.
    pose proof (broadcast_frame fails room3 (GameOver (default ""%string
                (if won rr then Some player else None)))) as (_ & Ho4 & _).
    rewrite Hb3 in Hw3, Ho4. cbn [fst snd] in Hw3, Ho4 |- *.
    rewrite Hw2, Hw3, Hs3, Ho4, Ho3.
    subst win. destruct (won rr); [|done]. done.
  - set (room2 := MultiRoom.mk _ game' _ _ _).
    destruct (broadcast fails room2 (GuessEvent data)) as [room3 w2] eqn:Hb2.
    pose proof (broadcast_writes fails room2 (GuessEvent data)) as Hw2.
    pose proof (broadcast_frame fails room2 (GuessEvent data)) as (_ & Ho3 & _).
    rewrite Hb2 in Hw2, Ho3. cbn [fst snd] in Hw2, Ho3 |- *.
    subst room2. cbn [MultiRoom.streams MultiRoom.over] in Hw2, Ho3.
    by rewrite Hw2, Ho3, Hs.
Qed.

Lemma accepted_guess_write_order_witness :
  let data := Build_guess_data "ann" [HIT; HIT; HIT; HIT; HIT] true true 5 in
  MultiRoom.over room_crane = false ∧
  (NormalWordleGame.guess_word (MultiRoom.game room_crane) (Str.lower (py "CRANE"))).2
  = inr room_crane_win ∧
  (handle_guess (λ h _, bool_decide (h = 2%nat)) room_crane 1%nat (py "CRANE") "ann").2
  = [(1%nat, Ack data)]
    ++ map (λ h, (h, GuessEvent data)) (elements ({[1%nat; 2%nat]} : gset conn))
    ++ map (λ h, (h, GameOver "ann")) (elements ({[1%nat]} : gset conn)) ∧
  MultiRoom.over
    (handle_guess (λ h _, bool_decide (h = 2%nat)) room_crane 1%nat (py "CRANE") "ann").1
  = true.
Proof.
  intros data. split; [reflexivity|]. split; [vm_compute; reflexivity|].
  pose proof (accepted_guess_write_order (λ h _, bool_decide (h = 2%nat)) room_crane
                1%nat (py "CRANE") "ann"%string
                (NormalWordleGame.guess_word (MultiRoom.game room_crane)
                   (Str.lower (py "CRANE"))).1
                room_crane_win eq_refl) as H.
  destruct H as [Hwrites Hover]; [vm_compute; reflexivity|].
  split; [|exact Hover].
  rewrite Hwrites. vm_compute. reflexivity.
Defined.

(** ** Rounds remaining *)

Lemma normal_guess_word_round self word :
  NormalWordleGame.round self ≤ NormalWordleGame.round (NormalWordleGame.guess_word self word).1
  ≤ NormalWordleGame.round self + 1 ∧
  ∀ rr, (NormalWordleGame.guess_word self word).2 = inr rr →
        remaining rr = max_rounds (NormalWordleGame.cfg self)
                       - (NormalWordleGame.round self + 1).
Proof.
  unfold NormalWordleGame.guess_word.
  destruct (decide (length _ ≠ length _)); [split; [cbn; lia|done]|].
  destruct (decide (_ ∉ _)); [split; [cbn; lia|done]|].
  cbn zeta. cbn [NormalWordleGame.answer NormalWordleGame.cfg NormalWordleGame.round].
  destruct (score_guess _ _); cbn [fst snd NormalWordleGame.round].
  - split; [lia|done].
  - split; [lia|]. by intros rr [= <-].
Qed.



(** ** The cheating host: partition *)

Section partition.
Import CheatingWordleGame.

Variable word : list ascii.

Lemma assoc_setdefault_add k c bs k' :
  assoc k' (setdefault_add k c bs)
  = if decide (k' = k) then Some (default ∅ (assoc k bs) ∪ {[c]}) else assoc k' bs.
Proof.
  induction bs as [|[k0 s0] bs IH]; cbn [setdefault_add assoc].
  - destruct (decide (k = k')), (decide (k' = k)); try congruence.
    cbn. f_equal. set_solver.
  - destruct (decide (k0 = k)) as [->|Hne]; cbn [assoc].
    + destruct (decide (k = k')), (decide (k' = k)); try congruence; done.
    + destruct (decide (k0 = k')) as [->|Hne'].
      * by rewrite decide_False by congruence.
      * by rewrite IH.
Qed.

Lemma keys_setdefault_add k c bs :
  (setdefault_add k c bs).*1 = if decide (k ∈ bs.*1) then bs.*1 else bs.*1 ++ [k].
Proof.
  induction bs as [|[k0 s0] bs IH]; cbn [setdefault_add fmap list_fmap].
  - rewrite decide_False; [done|]. apply not_elem_of_nil.
  - destruct (decide (k0 = k)) as [->|Hne]; cbn [fmap list_fmap fst].
    + rewrite decide_True; [done|]. apply elem_of_cons. by left.
    + change (list_fmap _ _ fst ?l) with (l.*1). rewrite IH.
      destruct (decide (k ∈ bs.*1)) as [Hin|Hnin].
      * rewrite decide_True; [done|]. apply elem_of_cons. by right.
      * rewrite decide_False; [done|]. rewrite elem_of_cons. naive_solver.
Qed.

Lemma NoDup_setdefault_add k c bs :
  NoDup bs.*1 → NoDup (setdefault_add k c bs).*1.
Proof.
  intros Hnd. rewrite keys_setdefault_add. case_decide; [done|].
  apply NoDup_app. split; [done|]. split; [|apply NoDup_singleton].
  intros x Hx ->%list_elem_of_singleton. done.
Qed.

Lemma assoc_elem_of k s bs :
  NoDup bs.*1 → assoc k bs = Some s ↔ (k, s) ∈ bs.
Proof.
  induction bs as [|[k0 s0] bs IH]; cbn [assoc fmap list_fmap fst].
  - intros _. split; [done|]. intros []%not_elem_of_nil.
  - change (list_fmap _ _ fst ?l) with (l.*1).
    intros [Hnin Hnd]%NoDup_cons. rewrite elem_of_cons.
    destruct (decide (k0 = k)) as [->|Hne].
    + split; [intros [= ->]; by left|].
      intros [[= ->]|Hin]; [done|].
      exfalso. apply Hnin. apply list_elem_of_fmap. by exists (k, s).
    + rewrite IH by done. split; [by right|].
      intros [[= ? ?]|?]; [congruence|done].
Qed.

Lemma group_add c seen k :
  group word ({[c]} ∪ seen) k
  = if decide (key_of_candidate word c = Some k)
    then {[c]} ∪ group word seen k else group word seen k.
Proof.
  unfold group. apply set_eq. intros x.
  destruct (decide (key_of_candidate word c = Some k)) as [Hc|Hc];
    rewrite ?elem_of_union, !elem_of_filter, ?elem_of_union, ?elem_of_singleton;
    naive_solver.
Qed.

Lemma partitioned_empty : partitioned word ∅ [].
Proof.
  split; [constructor|]. intros k. cbn.
  rewrite decide_True; [done|]. unfold group. set_solver.
Qed.

Lemma partitioned_add c pat seen bs :
  score_guess c word = inr pat →
  partitioned word seen bs →
  partitioned word ({[c]} ∪ seen) (setdefault_add (key_of pat) c bs).
Proof.
  intros Hpat [Hnd Hassoc]. split; [by apply NoDup_setdefault_add|].
  assert (key_of_candidate word c = Some (key_of pat)) as Hk
    by (unfold key_of_candidate; by rewrite Hpat).
  intros k. rewrite assoc_setdefault_add, group_add, Hk.
  destruct (decide (k = key_of pat)) as [->|Hne].
  - rewrite (decide_True (P := Some _ = Some _)) by done. rewrite Hassoc.
    rewrite (decide_False (P := _ ∪ _ = ∅)) by set_solver.
    f_equal. case_decide as He; cbn [default]; [rewrite He|]; set_solver.
  - rewrite (decide_False (P := Some _ = Some _)) by congruence. apply Hassoc.
Qed.

Lemma partition_partitioned cs : ∀ bs seen bs',
  partitioned word seen bs →
  partition word cs bs = inr bs' →
  partitioned word (list_to_set cs ∪ seen) bs'.
Proof.
  induction cs as [|c cs IH]; intros bs seen bs' Hinv Hrun; cbn [partition] in Hrun.
  - injection Hrun as <-. cbn. by rewrite union_empty_l_L.
  - destruct (score_guess c word) as [e|pat] eqn:Hpat; [done|].
    apply (IH _ ({[c]} ∪ seen)) in Hrun; [|by apply partitioned_add].
    rewrite list_to_set_cons.
    by replace ({[c]} ∪ list_to_set cs ∪ seen)
      with (list_to_set cs ∪ ({[c]} ∪ seen)) by set_solver.
Qed.

Lemma partition_total cs : ∀ bs,
  (∀ c, c ∈ cs → ∃ pat, score_guess c word = inr pat) →
  ∃ bs', partition word cs bs = inr bs'.
Proof.
  induction cs as [|c cs IH]; intros bs Hok; cbn [partition]; [eauto|].
  destruct (Hok c) as [pat ->]; [by left|].
  apply IH. intros c' Hc'. apply Hok. by right.
Qed.

Lemma partition_raises cs : ∀ bs e,
  partition word cs bs = inl e →
  ∃ c, c ∈ cs ∧ score_guess c word = inl e.
Proof.
  induction cs as [|c cs IH]; intros bs e Hrun; cbn [partition] in Hrun; [done|].
  destruct (score_guess c word) as [e'|pat] eqn:Hpat.
  - injection Hrun as ->. exists c. split; [by left|done].
  - destruct (IH _ _ Hrun) as (c' & Hc' & He). exists c'. split; [by right|done].
Qed.

Lemma partition_scores cs : ∀ bs bs',
  partition word cs bs = inr bs' →
  ∀ c, c ∈ cs → ∃ pat, score_guess c word = inr pat.
Proof.
  induction cs as [|c cs IH]; intros bs bs' Hrun c' Hc'; cbn [partition] in Hrun.
  - by apply not_elem_of_nil in Hc'.
  - destruct (score_guess c word) as [e|pat] eqn:Hpat; [done|].
    apply elem_of_cons in Hc' as [->|Hc']; [eauto|]. by eapply IH.
Qed.

(** A non-empty group is the bucket of a pattern. *)
Lemma group_bucket cands k c :
  c ∈ group word cands k →
  ∃ pat, k = key_of pat ∧ score_guess c word = inr pat
         ∧ group word cands k = bucket word cands pat.
Proof.
  unfold group. rewrite elem_of_filter. unfold key_of_candidate at 1.
  intros [Hk Hc]. destruct (score_guess c word) as [e|pat] eqn:Hpat; [done|].
  injection Hk as <-. exists pat. split; [done|]. split; [done|].
  unfold bucket. apply set_eq. intros c'. rewrite !elem_of_filter.
  unfold key_of_candidate. destruct (score_guess c' word) as [e'|pat']; [naive_solver|].
  unfold key_of. naive_solver.
Qed.

Lemma bucket_group cands pat :
  bucket word cands pat = group word cands (key_of pat).
Proof.
  unfold bucket, group. apply set_eq. intros c. rewrite !elem_of_filter.
  unfold key_of_candidate. destruct (score_guess c word) as [e|pat']; [naive_solver|].
  unfold key_of. naive_solver.
Qed.

End partition.

(** ** The cheating host: selection *)

Lemma no_worse_refl x : no_worse x x.
Proof. unfold no_worse, lex_le. cbn. split; [lia|done]. Qed.

Lemma no_worse_trans x y z : no_worse x y → no_worse y z → no_worse x z.
Proof.
  unfold no_worse, lex_le. cbn [fst snd].
  intros [Hxy Sxy] [Hyz Syz]. split; [lia|].
  intros [= Hh Hp].
  assert (size y.2 ≤ size x.2)%nat by (apply Sxy; f_equal; lia).
  assert (size z.2 ≤ size y.2)%nat by (apply Syz; f_equal; lia).
  lia.
Qed.

(** One step of the selection loop keeps the better of the two. *)
Lemma select_Some k s k' s' :
  ∃ kr sr,
    CheatingWordleGame.select (Some k, s) (k', s') = (Some kr, sr) ∧
    ((kr, sr) = (k, s) ∨ (kr, sr) = (k', s')) ∧
    no_worse (kr, sr) (k, s) ∧ no_worse (kr, sr) (k', s').
Proof.
  destruct k as [[bh bp] bpat], k' as [[h p] pat].
  unfold CheatingWordleGame.select, CheatingWordleGame.pair_ltb,
    CheatingWordleGame.pair_eqb. cbn [fst snd].
  destruct (_ || _) eqn:Hcmp.
  - exists (h, p, pat), s'. split; [done|]. split; [by right|].
    split; [|apply no_worse_refl].
    unfold no_worse, lex_le. cbn [fst snd].
    apply orb_true_iff in Hcmp as [Hlt|Heq].
    + split; [lia|]. intros [= ? ?]. lia.
    + apply andb_true_iff in Heq as [Heq Hsz].
      apply bool_decide_eq_true_1 in Hsz. split; [lia|]. lia.
  - exists (bh, bp, bpat), s. split; [done|]. split; [by left|].
    split; [apply no_worse_refl|].
    unfold no_worse, lex_le. cbn [fst snd].
    apply orb_false_iff in Hcmp as [Hlt Heq].
    split; [lia|]. intros [= -> ->].
    rewrite !Z.eqb_refl in Heq. cbn in Heq.
    apply bool_decide_eq_false_1 in Heq. lia.
Qed.

Lemma select_loop_Some bs : ∀ k s,
  ∃ kr sr,
    foldl CheatingWordleGame.select (Some k, s) bs = (Some kr, sr) ∧
    ((kr, sr) = (k, s) ∨ (kr, sr) ∈ bs) ∧
    no_worse (kr, sr) (k, s) ∧
    ∀ e, e ∈ bs → no_worse (kr, sr) e.
Proof.
  induction bs as [|[k' s'] bs IH]; intros k s; cbn [foldl].
  - exists k, s. split; [done|]. split; [by left|]. split; [apply no_worse_refl|].
    intros e []%not_elem_of_nil.
  - destruct (select_Some k s k' s') as (k1 & s1 & -> & Hor1 & Hw1 & Hw1').
    destruct (IH k1 s1) as (kr & sr & -> & Hor & Hw & Hall).
    exists kr, sr. split; [done|]. split; [|split].
    + destruct Hor as [->|Hin]; [|right; by right].
      destruct Hor1 as [->| ->]; [by left|right; by left].
    + by eapply no_worse_trans.
    + intros e [->|He]%elem_of_cons; [by eapply no_worse_trans|by apply Hall].
Qed.

(** The whole selection loop: nothing from nothing, else a bucket that no
    other bucket beats. *)
Lemma select_loop bs :
  (bs = [] ∧ foldl CheatingWordleGame.select (None, ∅) bs = (None, ∅)) ∨
  ∃ kr sr,
    foldl CheatingWordleGame.select (None, ∅) bs = (Some kr, sr) ∧
    (kr, sr) ∈ bs ∧ ∀ e, e ∈ bs → no_worse (kr, sr) e.
Proof.
  destruct bs as [|[k s] bs]; [by left|right].
  cbn [foldl]. change (CheatingWordleGame.select (None, ∅) (k, s)) with (Some k, s).
  destruct (select_loop_Some bs k s) as (kr & sr & -> & Hor & Hw & Hall).
  exists kr, sr. split; [done|]. split.
  - destruct Hor as [->|Hin]; [by left|by right].
  - intros e [->|He]%elem_of_cons; [done|by apply Hall].
Qed.

(** ** The cheating host: one call *)

Lemma cheat_play_cons self w ws :
  CheatingWordleGame.play self (w :: ws)
  = ((CheatingWordleGame.play (CheatingWordleGame.guess_word self w).1 ws).1,
     (CheatingWordleGame.guess_word self w).2
     :: (CheatingWordleGame.play (CheatingWordleGame.guess_word self w).1 ws).2).
Proof.
  cbn [CheatingWordleGame.play].
  destruct (CheatingWordleGame.guess_word self w) as [s r]. cbn [fst snd].
  destruct (CheatingWordleGame.play s ws). reflexivity.
Qed.

(** What a call does to the candidates, the round counter and the config,
    whatever its outcome. *)
Lemma cheat_guess_word_step (self : CheatingWordleGame.t) (word : list ascii) :
  let self' := (CheatingWordleGame.guess_word self word).1 in
  (CheatingWordleGame.candidates self' = CheatingWordleGame.candidates self
   ∨ ∃ pat, CheatingWordleGame.candidates self'
            = bucket (normalize word) (CheatingWordleGame.candidates self) pat) ∧
  CheatingWordleGame.cfg self' = CheatingWordleGame.cfg self ∧
  CheatingWordleGame.round self ≤ CheatingWordleGame.round self'
  ≤ CheatingWordleGame.round self + 1 ∧
  ∀ rr, (CheatingWordleGame.guess_word self word).2 = inr rr →
        remaining rr = max_rounds (CheatingWordleGame.cfg self)
                       - (CheatingWordleGame.round self + 1)
        ∨ remaining rr = max_rounds (CheatingWordleGame.cfg self) - 1.
Proof.
  unfold CheatingWordleGame.guess_word.
  destruct (decide (_ ∉ _)) as [|_]; [cbn; split; [by left|]; split; [done|]; split; [lia|done]|].
  destruct (CheatingWordleGame.resolved _) as [w|].
  { cbn [fst snd]. split; [by left|]. split; [done|]. split; [lia|].
    intros rr Hrr. right.
    by destruct (normal_guess_word_round
                   (NormalWordleGame.init w (CheatingWordleGame.cfg self))
                   (normalize word)) as [_ ->]. }
  cbn zeta.
  cbn [CheatingWordleGame.cfg CheatingWordleGame.candidates CheatingWordleGame.final
       CheatingWordleGame.round].
  destruct (CheatingWordleGame.partition _ _ _) as [e|bs] eqn:Hpart.
  { cbn. split; [by left|]. split; [done|]. split; [lia|done]. }
  pose proof (partition_scores _ _ _ _ Hpart) as Hscores.
  apply (partition_partitioned _ _ _ ∅) in Hpart as [Hnd Hassoc];
    [|apply partitioned_empty].
  rewrite union_empty_r_L, list_to_set_elements_L in Hassoc.
  destruct (select_loop bs) as [[-> ->]|(kr & sr & -> & Hin & _)]; cbn zeta.
  { cbn [fst snd CheatingWordleGame.candidates CheatingWordleGame.cfg
         CheatingWordleGame.round].
    split; [|split; [done|split; [lia|done]]].
    left. symmetry. apply set_eq. intros c. split; [|set_solver].
    intros Hc. exfalso.
    destruct (Hscores c) as [pat Hpat]; [by apply elem_of_elements|].
    specialize (Hassoc (CheatingWordleGame.key_of pat)). cbn [assoc] in Hassoc.
    destruct (decide (group _ _ _ = ∅)) as [Hempty|]; [|done].
    assert (c ∈ group (normalize word) (CheatingWordleGame.candidates self)
                  (CheatingWordleGame.key_of pat)) as Hg.
    { apply elem_of_filter. split; [|done]. unfold key_of_candidate. by rewrite Hpat. }
    rewrite Hempty in Hg. set_solver. }
  apply assoc_elem_of in Hin; [|done]. rewrite Hassoc in Hin.
  destruct (decide (group _ _ _ = ∅)) as [|Hne]; [done|]. injection Hin as <-.
  apply set_choose_L in Hne as [c Hc].
  apply group_bucket in Hc as (pat & -> & _ & Hgb).
  unfold CheatingWordleGame.key_of.
  cbn [CheatingWordleGame.cfg CheatingWordleGame.candidates CheatingWordleGame.round].
  split; [|split; [|split]].
  - right. exists pat. rewrite <- Hgb. by case_decide.
  - by case_decide.
  - case_decide; cbn; lia.
  - intros rr Hrr. left. case_decide; cbn in Hrr; by injection Hrr as <-.
Qed.

Lemma bucket_subseteq word cands pat : bucket word cands pat ⊆ cands.
Proof. unfold bucket. intros c [_ Hc]%elem_of_filter. done. Qed.

(** C6: a call replaces the candidate set, if at all, by one of the
    buckets of its partition, a subset of it; so over any sequence of calls
    on one instance the set only loses members and its size never grows. *)
Theorem cheat_candidates_never_grow (self : CheatingWordleGame.t) :
  (∀ word,
     let next := CheatingWordleGame.candidates (CheatingWordleGame.guess_word self word).1 in
     (next = CheatingWordleGame.candidates self
      ∨ ∃ pat, next = bucket (normalize word) (CheatingWordleGame.candidates self) pat) ∧
     next ⊆ CheatingWordleGame.candidates self) ∧
  (∀ words,
     let last := CheatingWordleGame.candidates (CheatingWordleGame.play self words).1 in
     last ⊆ CheatingWordleGame.candidates self ∧
     (size last ≤ size (CheatingWordleGame.candidates self))%nat).
Proof.
  assert (∀ self word,
    CheatingWordleGame.candidates (CheatingWordleGame.guess_word self word).1
    ⊆ CheatingWordleGame.candidates self) as Hstep.
  { intros s w. destruct (cheat_guess_word_step s w) as [[->|[pat ->]] _];
      [done|apply bucket_subseteq]. }
  split.
  - intros word next. split; [|apply Hstep].
    by destruct (cheat_guess_word_step self word) as [? _].
  - intros words last.
    assert (last ⊆ CheatingWordleGame.candidates self) as Hsub.
    { subst last. revert self. induction words as [|w words IH]; intros self; [done|].
      rewrite cheat_play_cons. cbn [fst]. etrans; [apply IH|apply Hstep]. }
    split; [done|by apply subseteq_size].
Qed.




(** The host's sums count the tokens. *)
Lemma count_tok_counts (x : token) (pat : list token) :
  CheatingWordleGame.count_tok x pat = Z.of_nat (length (filter (λ t, t = x) pat)).
Proof.
  unfold CheatingWordleGame.count_tok.
  assert (∀ n, foldl (λ n t, n + (if decide (t = x) then 1 else 0)) n pat
               = n + Z.of_nat (length (filter (λ t, t = x) pat))) as H; [|apply H].
  induction pat as [|t pat IH]; intros n; cbn [foldl].
  - cbn. lia.
  - rewrite IH, filter_cons. destruct (decide (t = x)); cbn [length]; lia.
Qed.

(** C2: on an unresolved game with candidates, all of the guess's length,
    a guess from the word list makes [guess_word] return a result whose
    tokens are the pattern of the bucket it retains; that bucket is the set
    of the candidates producing exactly this pattern, its (hitCount,
    presentCount) is lexicographically no greater than that of any bucket
    of the partition, and no bucket with the same counts is larger. *)
Theorem cheat_guess_word_retains_least_bucket
    (self : CheatingWordleGame.t) (word : list ascii) :
  CheatingWordleGame.resolved (CheatingWordleGame.final self) = None →
  CheatingWordleGame.candidates self ≠ ∅ →
  normalize word ∈ word_list (CheatingWordleGame.cfg self) →
  (∀ c, c ∈ CheatingWordleGame.candidates self →
        length (normalize c) = length (normalize word)) →
  ∃ self' rr,
    CheatingWordleGame.guess_word self word = (self', inr rr) ∧
    CheatingWordleGame.candidates self'
    = bucket (normalize word) (CheatingWordleGame.candidates self) (tokens rr) ∧
    CheatingWordleGame.candidates self' ≠ ∅ ∧
    ∀ pat,
      bucket (normalize word) (CheatingWordleGame.candidates self) pat ≠ ∅ →
      lex_le (hit_present (tokens rr)) (hit_present pat) ∧
      (hit_present pat = hit_present (tokens rr) →
       (size (bucket (normalize word) (CheatingWordleGame.candidates self) pat)
        ≤ size (CheatingWordleGame.candidates self'))%nat).
Proof.
  intros Hres Hne Hin Hlen.
  unfold CheatingWordleGame.guess_word.
  rewrite decide_False by (by intros ?). rewrite Hres. cbn zeta.
  cbn [CheatingWordleGame.cfg CheatingWordleGame.candidates CheatingWordleGame.final
       CheatingWordleGame.round].
  destruct (partition_total (normalize word)
              (elements (CheatingWordleGame.candidates self)) []) as [bs Hpart].
  { intros c Hc%elem_of_elements.
    destruct (score_guess_same_length c (normalize word)) as (pat & Hpat & _); [|eauto].
    rewrite normalize_idem. by apply Hlen. }
  rewrite Hpart.
  apply (partition_partitioned _ _ _ ∅) in Hpart as [Hnd Hassoc];
    [|apply partitioned_empty].
  rewrite union_empty_r_L, list_to_set_elements_L in Hassoc.
  assert (∀ pat,
    bucket (normalize word) (CheatingWordleGame.candidates self) pat ≠ ∅ →
    (CheatingWordleGame.key_of pat,
     bucket (normalize word) (CheatingWordleGame.candidates self) pat) ∈ bs) as Hfiled.
  { intros pat Hpat. apply assoc_elem_of; [done|].
    rewrite Hassoc, <- bucket_group. by rewrite decide_False. }
  destruct (select_loop bs) as [[-> _]|(kr & sr & -> & Hbest & Hall)].
  { exfalso. apply set_choose_L in Hne as [c Hc].
    destruct (score_guess_same_length c (normalize word)) as (pat & Hpat & _).
    { rewrite normalize_idem. by apply Hlen. }
    eapply not_elem_of_nil, (Hfiled pat).
    intros Hempty.
    assert (c ∈ bucket (normalize word) (CheatingWordleGame.candidates self) pat) as Hb
      by (by apply elem_of_filter).
    rewrite Hempty in Hb. set_solver. }
  apply assoc_elem_of in Hbest; [|done]. rewrite Hassoc in Hbest.
  destruct (decide (group _ _ _ = ∅)) as [|Hgne]; [done|]. injection Hbest as <-.
  pose proof Hgne as Hgne'.
  apply set_choose_L in Hgne' as [c Hc].
  apply group_bucket in Hc as (pat & -> & _ & Hgb).
  rewrite Hgb in Hall, Hgne |- *.
  unfold CheatingWordleGame.key_of at 1.
  cbn [CheatingWordleGame.cfg CheatingWordleGame.candidates CheatingWordleGame.round].
  assert (∀ pat',
    bucket (normalize word) (CheatingWordleGame.candidates self) pat' ≠ ∅ →
    lex_le (hit_present pat) (hit_present pat') ∧
    (hit_present pat' = hit_present pat →
     (size (bucket (normalize word) (CheatingWordleGame.candidates self) pat')
      ≤ size (bucket (normalize word) (CheatingWordleGame.candidates self) pat))%nat))
    as Hleast.
  { intros pat' Hpat'. destruct (Hall _ (Hfiled pat' Hpat')) as [Hlex Hsz].
    unfold CheatingWordleGame.key_of in Hlex, Hsz. cbn [fst snd] in Hlex, Hsz.
    rewrite !count_tok_counts in Hlex, Hsz.
    split; [exact Hlex|exact Hsz]. }
  destruct (decide (size _ = 1%nat));
    cbn [CheatingWordleGame.cfg CheatingWordleGame.candidates CheatingWordleGame.round];
    (do 2 eexists; split; [reflexivity|]);
    cbn [tokens CheatingWordleGame.candidates]; done.
Qed.

Lemma cheat_guess_word_retains_least_bucket_witness :
  let self := CheatingWordleGame.init CFG_crane in
  CheatingWordleGame.resolved (CheatingWordleGame.final self) = None ∧
  CheatingWordleGame.candidates self ≠ ∅ ∧
  normalize (py "Slate") ∈ word_list (CheatingWordleGame.cfg self) ∧
  (∀ c, c ∈ CheatingWordleGame.candidates self →
        length (normalize c) = length (normalize (py "Slate"))) ∧
  ∃ self' rr,
    CheatingWordleGame.guess_word self (py "Slate") = (self', inr rr) ∧
    CheatingWordleGame.candidates self'
    = bucket (normalize (py "Slate")) (CheatingWordleGame.candidates self) (tokens rr) ∧
    ∀ pat,
      bucket (normalize (py "Slate")) (CheatingWordleGame.candidates self) pat ≠ ∅ →
      lex_le (hit_present (tokens rr)) (hit_present pat).
Proof.
  intros self.
  assert (CheatingWordleGame.candidates self ≠ ∅) as Hne.
  { apply (non_empty_inhabited_L (py "crane")). subst self. cbn. set_solver. }
  assert (normalize (py "Slate") ∈ word_list (CheatingWordleGame.cfg self)) as Hin
    by (vm_compute; set_solver).
  assert (∀ c, c ∈ CheatingWordleGame.candidates self →
               length (normalize c) = length (normalize (py "Slate"))) as Hlen.
  { intros c Hc. subst self. cbn in Hc.
    rewrite !elem_of_union, !elem_of_singleton in Hc.
    destruct Hc as [->|[->|[->|Hc]]]; [reflexivity..|set_solver]. }
  split; [reflexivity|]. split; [exact Hne|]. split; [exact Hin|].
  split; [exact Hlen|].
  destruct (cheat_guess_word_retains_least_bucket self (py "Slate") eq_refl Hne Hin Hlen)
    as (self' & rr & Hcall & Hcands & _ & Hleast).
  exists self', rr. split; [exact Hcall|]. split; [exact Hcands|].
  intros pat Hpat. by destruct (Hleast pat Hpat).
Defined.

(** ** The cheating host after resolution *)

(** Every call after resolution plays the first round of a new standard
    game on the resolved word, and leaves the host as it is. *)
Lemma cheat_guess_word_resolved (self : CheatingWordleGame.t) (word w : list ascii) :
  CheatingWordleGame.resolved (CheatingWordleGame.final self) = Some w →
  normalize word ∈ word_list (CheatingWordleGame.cfg self) →
  CheatingWordleGame.guess_word self word
  = (self, (NormalWordleGame.guess_word
              (NormalWordleGame.init w (CheatingWordleGame.cfg self)) word).2).
Proof.
  intros Hres Hin. unfold CheatingWordleGame.guess_word.
  rewrite decide_False by (by intros ?). rewrite Hres.
  unfold NormalWordleGame.guess_word. by rewrite normalize_idem.
Qed.

(** C3 on the word list "ab", "cd": the guess "ab" resolves the host to
    "cd"; the host then answers two further guesses "ab" with 5 rounds
    remaining both times, where a standard game on "cd" answers 5 and
    then 4. *)
Theorem cheat_resolved_restarts_rounds :
  let host := (CheatingWordleGame.guess_word (CheatingWordleGame.init CFG_ab) (py "ab")).1 in
  CheatingWordleGame.final host = Some (py "cd") ∧
  (CheatingWordleGame.play host [py "ab"; py "ab"]).2
  = [inr (ab_missed 5); inr (ab_missed 5)] ∧
  (NormalWordleGame.play (NormalWordleGame.init (py "cd") CFG_ab) [py "ab"; py "ab"]).2
  = [inr (ab_missed 5); inr (ab_missed 4)].
Proof. vm_compute. repeat split; reflexivity. Qed.

(** * Further properties of the scorer *)

Lemma unmatched_cons c y g t r :
  unmatched c (y :: g) (t :: r)
  = ((if decide (y = c ∧ t ≠ HIT) then 1 else 0) + unmatched c g r)%nat.
Proof.
  unfold unmatched. cbn [zip zip_with]. rewrite filter_cons. cbn [fst snd].
  by repeat case_decide.
Qed.

Lemma credited_count_split c g : ∀ pat,
  credited_count c g pat = (marked HIT c g pat + marked PRESENT c g pat)%nat.
Proof.
  induction g as [|y g IH]; intros [|t pat]; try done.
  rewrite credited_count_cons, !marked_cons, IH.
  destruct t; repeat case_decide; try lia; naive_solver.
Qed.

Lemma occurrences_split c g : ∀ pat,
  length g = length pat →
  occurrences c g = (marked HIT c g pat + unmatched c g pat)%nat.
Proof.
  induction g as [|y g IH]; intros [|t pat] Hlen; try done.
  injection Hlen as Hlen.
  rewrite occurrences_cons, marked_cons, unmatched_cons, (IH pat Hlen).
  destruct t; repeat case_decide; try lia; naive_solver.
Qed.

Lemma second_loop_marked_hit c g : ∀ res remain,
  length g = length res →
  marked HIT c g (second_loop g res remain).1 = marked HIT c g res.
Proof.
  induction g as [|y g IH]; intros [|t res] remain Hlen; try done.
  injection Hlen as Hlen. cbn [second_loop].
  case_decide as Hhit; [|case_decide as Hpos]; cbn [fst];
    rewrite !marked_cons, IH by done; [done| |done].
  repeat case_decide; try lia; naive_solver.
Qed.

(** The second loop gives PRESENT to as many unmatched guess letters as
    [remain] has left of the letter, and no more. *)
Lemma second_loop_present c g : ∀ res remain,
  length g = length res →
  Forall (λ t, t ≠ PRESENT) res →
  (∀ d, 0 ≤ get0 remain d) →
  Z.of_nat (marked PRESENT c g (second_loop g res remain).1)
  = Z.min (get0 remain c) (Z.of_nat (unmatched c g res)).
Proof.
  induction g as [|y g IH]; intros [|t res] remain Hlen Hres Hpos; try done.
  { cbn. specialize (Hpos c). lia. }
  injection Hlen as Hlen. apply Forall_cons in Hres as [Ht Hres].
  cbn [second_loop].
  case_decide as Hhit; [|case_decide as Hrem]; cbn [fst];
    rewrite marked_cons, unmatched_cons.
  - rewrite Nat2Z.inj_add, (IH res remain) by done.
    repeat case_decide; try naive_solver; lia.
  - rewrite Nat2Z.inj_add, (IH res (<[y:=get0 remain y - 1]> remain)); [|done..|].
    + rewrite get0_insert.
      repeat case_decide; destruct_and?; subst; try lia; naive_solver.
    + intros d. rewrite get0_insert. case_decide; [lia|done].
  - rewrite Nat2Z.inj_add, (IH res remain) by done.
    pose proof (Hpos y).
    repeat case_decide; destruct_and?; subst; try lia; naive_solver.
Qed.

(** X1: on words of one normalised length the pattern credits every
    letter, by HIT or PRESENT, exactly as often as the letter occurs in
    both words: the smaller of its counts in the guess and in the target. *)
Theorem score_guess_credits_min (t g : list ascii) :
  length (normalize t) = length (normalize g) →
  ∃ pat,
    score_guess t g = inr pat ∧
    ∀ c, credited_count c (normalize g) pat
         = Nat.min (occurrences c (normalize g)) (occurrences c (normalize t)).
Proof.
  intros Hlen. eexists. split; [by apply score_guess_loops|].
  intros c.
  set (a := normalize t) in *. set (w := normalize g) in *.
  assert (length w = length (first_loop a w ∅).1) as Hlen1
    by (by rewrite first_loop_length).
  assert (∀ d, 0 ≤ get0 (first_loop a w ∅).2 d) as Hpos.
  { apply first_loop_nonneg. intros d. by rewrite get0_empty. }
  pose proof (second_loop_present c w (first_loop a w ∅).1 (first_loop a w ∅).2
                Hlen1 (first_loop_no_present a w ∅) Hpos) as Hp.
  pose proof (second_loop_marked_hit c w (first_loop a w ∅).1
                (first_loop a w ∅).2 Hlen1) as Hh.
  pose proof (first_loop_count a w ∅ c Hlen) as Hc.
  pose proof (occurrences_split c w (first_loop a w ∅).1 Hlen1) as Ho.
  rewrite get0_empty in Hc.
  rewrite credited_count_split, Hh. lia.
Qed.

Lemma score_guess_credits_min_witness :
  length (normalize (py "sassy")) = length (normalize (py " GRASS")) ∧
  ∃ pat,
    score_guess (py "sassy") (py " GRASS") = inr pat ∧
    ∀ c, credited_count c (normalize (py " GRASS")) pat
         = Nat.min (occurrences c (normalize (py " GRASS")))
                   (occurrences c (normalize (py "sassy"))).
Proof.
  split; [reflexivity|].
  apply (score_guess_credits_min (py "sassy") (py " GRASS")). reflexivity.
Defined.

Lemma all_hit_lookup (pat : list token) :
  Forall (λ t, t = HIT) pat ↔ ∀ i, (i < length pat)%nat → pat !! i = Some HIT.
Proof.
  rewrite Forall_lookup. split.
  - intros H i Hi. destruct (lookup_lt_is_Some_2 pat i Hi) as [t Ht].
    by rewrite Ht, (H i t Ht).
  - intros H i t Ht. pose proof (lookup_lt_Some _ _ _ Ht) as Hi.
    rewrite (H i Hi) in Ht. by injection Ht.
Qed.

Lemma score_guess_all_hit (t g : list ascii) (pat : list token) :
  score_guess t g = inr pat →
  Forall (λ x, x = HIT) pat ↔ normalize t = normalize g.
Proof.
  intros Hscore.
  destruct (decide (length (normalize t) = length (normalize g))) as [Hlen|Hlen];
    [|by rewrite score_guess_length_mismatch in Hscore].
  rewrite score_guess_loops in Hscore by done. injection Hscore as <-.
  set (a := normalize t) in *. set (w := normalize g) in *.
  assert (length w = length (first_loop a w ∅).1) as Hlen1
    by (by rewrite first_loop_length).
  rewrite all_hit_lookup, second_loop_length, first_loop_length by done.
  split.
  - intros Hall. apply list_eq_same_length with (length a); [done..|].
    intros i x y Hi Hx Hy.
    specialize (Hall i Hi). rewrite second_loop_hit in Hall by done.
    apply first_loop_hit in Hall as (z & Hz1 & Hz2); [|done]. congruence.
  - intros Heq i Hi. rewrite second_loop_hit by done.
    apply first_loop_hit; [done|].
    destruct (lookup_lt_is_Some_2 a i Hi) as [x Hx].
    exists x. split; [done|]. by rewrite <- Heq.
Qed.

(** X2: a pattern is all HIT exactly when the guess, normalised, is the
    normalised target. *)
Theorem score_guess_all_hit_iff_equal (t g : list ascii) (pat : list token) :
  score_guess t g = inr pat →
  Forall (λ x, x = HIT) pat ↔ normalize t = normalize g.
Proof. apply score_guess_all_hit. Qed.

Lemma score_guess_all_hit_iff_equal_witness :
  score_guess (py "Crane ") (py "CRANE") = inr [HIT; HIT; HIT; HIT; HIT] ∧
  (Forall (λ x, x = HIT) [HIT; HIT; HIT; HIT; HIT]
   ↔ normalize (py "Crane ") = normalize (py "CRANE")).
Proof.
  split; [vm_compute; reflexivity|].
  apply (score_guess_all_hit_iff_equal (py "Crane ") (py "CRANE")).
  vm_compute. reflexivity.
Defined.

(** X3: the scorer raises exactly when the normalised lengths differ;
    otherwise it returns a pattern as long as the normalised words. *)
Theorem score_guess_raises_iff_lengths_differ (t g : list ascii) :
  (length (normalize t) ≠ length (normalize g) ∧
   score_guess t g = inl (ValueError "Guess length must match the answer length."))
  ∨ (length (normalize t) = length (normalize g) ∧
     ∃ pat, score_guess t g = inr pat ∧ length pat = length (normalize g)).
Proof.
  destruct (decide (length (normalize t) = length (normalize g))) as [Hlen|Hlen].
  - right. split; [done|].
    destruct (score_guess_same_length t g Hlen) as (pat & Hpat & Hl).
    exists pat. split; [done|]. by rewrite Hl.
  - left. split; [done|]. by apply score_guess_length_mismatch.
Qed.

(** * Further properties of the standard game *)

(** What a returned result says about the word that was guessed. *)
Lemma normal_guess_word_returned (self self' : NormalWordleGame.t)
    (word : list ascii) (rr : RoundResult) :
  normalize (NormalWordleGame.answer self) = NormalWordleGame.answer self →
  NormalWordleGame.guess_word self word = (self', inr rr) →
  normalize word ∈ word_list (NormalWordleGame.cfg self) ∧
  guess rr = normalize word ∧
  (won rr = true ↔ normalize word = NormalWordleGame.answer self).
Proof.
  intros Hans Hcall.
  destruct (decide (normalize word ∈ word_list (NormalWordleGame.cfg self)))
    as [Hin|Hnin]; [|by rewrite normal_guess_word_rejected in Hcall].
  destruct (decide (length (normalize word) = length (NormalWordleGame.answer self)))
    as [Hlen|Hlen].
  2:{ unfold NormalWordleGame.guess_word in Hcall.
      by rewrite decide_True in Hcall. }
  destruct (normal_guess_word_legal self word Hans Hlen Hin) as (pat & Hpat & Heq).
  cbn zeta in Heq. rewrite Heq in Hcall. injection Hcall as _ <-.
  cbn [guess won]. split; [done|]. split; [done|].
  rewrite forallb_all_hit, (score_guess_all_hit _ _ _ Hpat), Hans, normalize_idem.
  split; congruence.
Qed.

(** X4: on a standard game a returned result has [won] set exactly when
    the guess, normalised, is the game's answer. *)
Theorem normal_won_iff_guess_is_answer
    (answer : list ascii) (cfg : GameConfig) (earlier : list (list ascii))
    (word : list ascii) (self' : NormalWordleGame.t) (rr : RoundResult) :
  NormalWordleGame.guess_word
    (NormalWordleGame.play (NormalWordleGame.init answer cfg) earlier).1 word
  = (self', inr rr) →
  won rr = true ↔ normalize word = normalize answer.
Proof.
  intros Hcall.
  destruct (normal_play_frame earlier (NormalWordleGame.init answer cfg)) as [Hans _].
  destruct (normal_play_inv earlier _ (normal_init_inv answer cfg)) as [Hnorm _].
  apply normal_guess_word_returned in Hcall as (_ & _ & Hwon); [|done].
  by rewrite Hwon, Hans.
Qed.

Lemma normal_won_iff_guess_is_answer_witness :
  NormalWordleGame.guess_word
    (NormalWordleGame.play (NormalWordleGame.init (py "crane") CFG_crane)
       [py "slate"]).1 (py " CRANE")
  = ((NormalWordleGame.play (NormalWordleGame.init (py "crane") CFG_crane)
        [py "slate"; py " CRANE"]).1,
     inr (Build_RoundResult (py "crane") [HIT; HIT; HIT; HIT; HIT] 4 true true)) ∧
  (true = true ↔ normalize (py " CRANE") = normalize (py "crane")).
Proof.
  assert (NormalWordleGame.guess_word
    (NormalWordleGame.play (NormalWordleGame.init (py "crane") CFG_crane)
       [py "slate"]).1 (py " CRANE")
  = ((NormalWordleGame.play (NormalWordleGame.init (py "crane") CFG_crane)
        [py "slate"; py " CRANE"]).1,
     inr (Build_RoundResult (py "crane") [HIT; HIT; HIT; HIT; HIT] 4 true true)))
    as Hcall by (vm_compute; reflexivity).
  split; [exact Hcall|].
  exact (normal_won_iff_guess_is_answer (py "crane") CFG_crane [py "slate"]
           (py " CRANE") _ _ Hcall).
Defined.

Lemma normal_play_never_won words : ∀ self rr,
  normalize (NormalWordleGame.answer self) = NormalWordleGame.answer self →
  NormalWordleGame.answer self ∉ word_list (NormalWordleGame.cfg self) →
  inr rr ∈ (NormalWordleGame.play self words).2 → won rr = false.
Proof.
  induction words as [|w words IH]; intros self rr Hans Hnin Hin.
  { cbn in Hin. by apply not_elem_of_nil in Hin. }
  rewrite normal_play_cons in Hin. cbn [snd] in Hin.
  destruct (normal_guess_word_frame self w) as [Hans' Hcfg'].
  apply elem_of_cons in Hin as [Hhd|Htl].
  - destruct (NormalWordleGame.guess_word self w) as [self' r] eqn:Hcall.
    cbn [snd] in Hhd. subst r.
    apply normal_guess_word_returned in Hcall as (Hw & _ & Hwon); [|done].
    destruct (won rr); [|done].
    exfalso. apply Hnin. rewrite <- (proj1 Hwon eq_refl). done.
  - apply (IH (NormalWordleGame.guess_word self w).1 rr); [| |done].
    + by rewrite Hans'.
    + by rewrite Hans', Hcfg'.
Qed.

(** X5: a standard game whose normalised answer is not in the word list
    cannot be won: whatever is guessed, no result has [won] set. *)
Theorem normal_unwinnable_outside_word_list
    (answer : list ascii) (cfg : GameConfig) (words : list (list ascii))
    (rr : RoundResult) :
  normalize answer ∉ word_list cfg →
  inr rr ∈ (NormalWordleGame.play (NormalWordleGame.init answer cfg) words).2 →
  won rr = false.
Proof.
  intros Hnin. apply normal_play_never_won; cbn; [apply normalize_idem|done].
Qed.

Lemma normal_unwinnable_outside_word_list_witness :
  let cfg := Build_GameConfig 6 [py "Crane"; py "slate"] in
  let rr := Build_RoundResult (py "slate") [MISS; MISS; HIT; MISS; HIT] 5 false false in
  normalize (py "Crane") ∉ word_list cfg ∧
  inr rr ∈ (NormalWordleGame.play (NormalWordleGame.init (py "Crane") cfg)
              [py "crane"; py "slate"]).2 ∧
  won rr = false.
Proof.
  intros cfg rr.
  assert (normalize (py "Crane") ∉ word_list cfg) as Hnin
    by (vm_compute; set_solver).
  assert (inr rr ∈ (NormalWordleGame.play (NormalWordleGame.init (py "Crane") cfg)
                      [py "crane"; py "slate"]).2) as Hin
    by (vm_compute; set_solver).
  split; [exact Hnin|]. split; [exact Hin|].
  exact (normal_unwinnable_outside_word_list (py "Crane") cfg
           [py "crane"; py "slate"] rr Hnin Hin).
Defined.

Lemma normal_guess_word_history self word :
  NormalWordleGame.history (NormalWordleGame.guess_word self word).1
  = NormalWordleGame.history self
    ++ returned [(NormalWordleGame.guess_word self word).2].
Proof.
  unfold NormalWordleGame.guess_word.
  destruct (decide (length _ ≠ length _)); [cbn; by rewrite app_nil_r|].
  destruct (decide (_ ∉ _)); [cbn; by rewrite app_nil_r|].
  cbn zeta. cbn [NormalWordleGame.answer NormalWordleGame.history].
  destruct (score_guess _ _); cbn; [by rewrite app_nil_r|done].
Qed.

(** X6: the history of a standard game is what it had at the start
    followed by the results its calls returned, in order; a call that
    raises adds nothing. *)
Theorem normal_history_is_returned_results (self : NormalWordleGame.t)
    (words : list (list ascii)) :
  NormalWordleGame.history (NormalWordleGame.play self words).1
  = NormalWordleGame.history self ++ returned (NormalWordleGame.play self words).2.
Proof.
  revert self. induction words as [|w words IH]; intros self.
  { cbn. by rewrite app_nil_r. }
  rewrite normal_play_cons. cbn [fst snd].
  rewrite IH, normal_guess_word_history, <- app_assoc. f_equal.
  unfold returned. cbn [omap list_omap].
  by destruct (NormalWordleGame.guess_word self w).2.
Qed.

(** * Further properties of the cheating host *)

(** The paths of one call, each with the host and the outcome it leaves. *)
Lemma cheat_guess_word_cases (self : CheatingWordleGame.t) (word : list ascii) :
  (normalize word ∉ word_list (CheatingWordleGame.cfg self) ∧
   CheatingWordleGame.guess_word self word
   = (self, inl (ValueError "Word not found in dictionary.")))
  ∨ (∃ f, CheatingWordleGame.resolved (CheatingWordleGame.final self) = Some f ∧
          CheatingWordleGame.guess_word self word
          = (self, (NormalWordleGame.guess_word
                      (NormalWordleGame.init f (CheatingWordleGame.cfg self)) word).2))
  ∨ (CheatingWordleGame.resolved (CheatingWordleGame.final self) = None ∧
     ((∃ e, CheatingWordleGame.guess_word self word = (next_round self, inl e) ∧
            ((∃ c, c ∈ CheatingWordleGame.candidates self ∧
                   score_guess c (normalize word) = inl e)
             ∨ CheatingWordleGame.candidates self = ∅))
      ∨ ∃ pat,
          bucket (normalize word) (CheatingWordleGame.candidates self) pat ≠ ∅ ∧
          CheatingWordleGame.guess_word self word
          = (narrowed self (normalize word) pat,
             inr (Build_RoundResult (normalize word) pat
                    (max_rounds (CheatingWordleGame.cfg self)
                     - (CheatingWordleGame.round self + 1))
                    false
                    (bool_decide (max_rounds (CheatingWordleGame.cfg self)
                                  ≤ CheatingWordleGame.round self + 1)))))).
Proof.
  destruct (decide (normalize word ∉ word_list (CheatingWordleGame.cfg self)))
    as [Hnin|Hin].
  { left. split; [done|]. unfold CheatingWordleGame.guess_word.
    by rewrite decide_True. }
  apply dec_stable in Hin. right.
  destruct (CheatingWordleGame.resolved (CheatingWordleGame.final self))
    as [f|] eqn:Hres.
  { left. exists f. split; [done|]. by apply cheat_guess_word_resolved. }
  right. split; [done|].
  unfold CheatingWordleGame.guess_word.
  rewrite decide_False by (by intros ?). rewrite Hres. cbn zeta.
  cbn [CheatingWordleGame.cfg CheatingWordleGame.candidates CheatingWordleGame.final
       CheatingWordleGame.round].
  destruct (CheatingWordleGame.partition _ _ _) as [e|bs] eqn:Hpart.
  { left. exists e. split; [done|]. left.
    apply partition_raises in Hpart as (c & Hc & He).
    exists c. split; [by apply elem_of_elements|done]. }
  pose proof (partition_scores _ _ _ _ Hpart) as Hscores.
  apply (partition_partitioned _ _ _ ∅) in Hpart as [Hnd Hassoc];
    [|apply partitioned_empty].
  rewrite union_empty_r_L, list_to_set_elements_L in Hassoc.
  destruct (select_loop bs) as [[-> ->]|(kr & sr & -> & Hbest & _)]; cbn zeta.
  { left. exists TypeError.
    assert (CheatingWordleGame.candidates self = ∅) as Hempty;
      [|split; [unfold next_round; by rewrite Hempty|by right]].
    apply set_eq. intros c. split; [|set_solver].
    intros Hc. exfalso.
    destruct (Hscores c) as [pat Hpat]; [by apply elem_of_elements|].
    specialize (Hassoc (CheatingWordleGame.key_of pat)). cbn [assoc] in Hassoc.
    destruct (decide (group _ _ _ = ∅)) as [Hempty|]; [|done].
    assert (c ∈ group (normalize word) (CheatingWordleGame.candidates self)
                  (CheatingWordleGame.key_of pat)) as Hg.
    { apply elem_of_filter. split; [|done]. unfold key_of_candidate. by rewrite Hpat. }
    rewrite Hempty in Hg. set_solver. }
  right.
  apply assoc_elem_of in Hbest; [|done]. rewrite Hassoc in Hbest.
  destruct (decide (group _ _ _ = ∅)) as [|Hne]; [done|]. injection Hbest as <-.
  pose proof Hne as Hne'.
  apply set_choose_L in Hne' as [c Hc].
  apply group_bucket in Hc as (pat & -> & _ & Hgb).
  rewrite Hgb in Hne |- *. exists pat. split; [done|].
  unfold CheatingWordleGame.key_of, narrowed.
  cbn [CheatingWordleGame.cfg CheatingWordleGame.candidates CheatingWordleGame.round].
  by case_decide.
Qed.

Lemma score_guess_normalized_guess (c word : list ascii) :
  score_guess c (normalize word) = score_guess c word.
Proof. unfold score_guess. by rewrite normalize_idem. Qed.

Lemma score_guess_normalized_answer (c word : list ascii) :
  score_guess (normalize c) word = score_guess c word.
Proof. unfold score_guess. by rewrite normalize_idem. Qed.

Lemma resolved_Some final f :
  CheatingWordleGame.resolved final = Some f → final = Some f.
Proof.
  unfold CheatingWordleGame.resolved. destruct final as [w|]; [|done].
  destruct (Str.truthy w); [|done]. by intros [= ->].
Qed.

Lemma bucket_elem_of word cands pat c :
  c ∈ bucket word cands pat ↔ c ∈ cands ∧ score_guess c word = inr pat.
Proof. unfold bucket. rewrite elem_of_filter. tauto. Qed.

Lemma narrowed_final_is_sole_candidate self word pat :
  bucket word (CheatingWordleGame.candidates self) pat ≠ ∅ →
  final_is_sole_candidate self →
  final_is_sole_candidate (narrowed self word pat).
Proof.
  intros Hne Hinv f. unfold narrowed.
  cbn [CheatingWordleGame.final CheatingWordleGame.candidates].
  case_decide as Hsize.
  - apply size_1_elem_of in Hsize as [x Hx]. apply leibniz_equiv in Hx.
    rewrite Hx, elements_singleton. cbn. by intros [= ->].
  - intros Hf. specialize (Hinv f Hf). exfalso. apply Hsize.
    assert (bucket word (CheatingWordleGame.candidates self) pat = {[f]}) as ->.
    { apply set_choose_L in Hne as [c Hc].
      pose proof (bucket_subseteq word (CheatingWordleGame.candidates self) pat) as Hsub.
      rewrite Hinv in Hsub, Hc |- *. set_solver. }
    apply size_singleton.
Qed.

Lemma cheat_guess_word_final_is_sole_candidate self word :
  final_is_sole_candidate self →
  final_is_sole_candidate (CheatingWordleGame.guess_word self word).1.
Proof.
  intros Hinv.
  destruct (cheat_guess_word_cases self word)
    as [[_ ->]|[(f & _ & ->)|[_ [[e [-> _]]|(pat & Hne & ->)]]]]; cbn [fst]; try done.
  by apply narrowed_final_is_sole_candidate.
Qed.

(** A returned result is the score of every candidate the call leaves. *)
Lemma cheat_guess_word_justified self word self' rr :
  final_is_sole_candidate self →
  CheatingWordleGame.guess_word self word = (self', inr rr) →
  CheatingWordleGame.candidates self' ≠ ∅ ∧
  ∀ c, c ∈ CheatingWordleGame.candidates self' →
       score_guess c (guess rr) = inr (tokens rr).
Proof.
  intros Hinv Hcall.
  destruct (cheat_guess_word_cases self word)
    as [[_ Heq]|[(f & Hres & Heq)|[_ [[e [Heq _]]|(pat & Hne & Heq)]]]];
    rewrite Heq in Hcall; try done.
  - injection Hcall as <- Hrr.
    apply resolved_Some in Hres. rewrite (Hinv f Hres).
    split; [set_solver|]. intros c ->%elem_of_singleton.
    destruct (NormalWordleGame.guess_word _ _) as [g r] eqn:Hdel.
    cbn [snd] in Hrr. subst r.
    pose proof Hdel as Hdel'.
    apply normal_guess_word_returned in Hdel' as (Hin & Hguess & _);
      [|apply normalize_idem].
    destruct (decide (length (normalize word) = length (normalize f))) as [Hlen|Hlen].
    2:{ unfold NormalWordleGame.guess_word in Hdel.
        by rewrite decide_True in Hdel. }
    destruct (normal_guess_word_legal
                (NormalWordleGame.init f (CheatingWordleGame.cfg self)) word
                (normalize_idem f) Hlen Hin) as (pat & Hpat & Heq').
    cbn zeta in Heq'. rewrite Heq' in Hdel. injection Hdel as _ <-.
    cbn [guess tokens]. cbn [NormalWordleGame.init NormalWordleGame.answer] in Hpat.
    by rewrite score_guess_normalized_answer in Hpat.
  - injection Hcall as <- <-. unfold narrowed.
    cbn [CheatingWordleGame.candidates guess tokens].
    split; [done|]. by intros c [_ Hc]%bucket_elem_of.
Qed.

Lemma cheat_guess_word_keeps_some self word :
  CheatingWordleGame.candidates self ≠ ∅ →
  CheatingWordleGame.candidates (CheatingWordleGame.guess_word self word).1 ≠ ∅.
Proof.
  intros Hne.
  destruct (cheat_guess_word_cases self word)
    as [[_ ->]|[(f & _ & ->)|[_ [[e [-> _]]|(pat & Hpat & ->)]]]]; cbn [fst]; done.
Qed.

Lemma cheat_play_subseteq words : ∀ self,
  CheatingWordleGame.candidates (CheatingWordleGame.play self words).1
  ⊆ CheatingWordleGame.candidates self.
Proof.
  induction words as [|w words IH]; intros self; [done|].
  rewrite cheat_play_cons. cbn [fst]. etrans; [apply IH|].
  destruct (cheat_guess_word_step self w) as [[->|[pat ->]] _];
    [done|apply bucket_subseteq].
Qed.

Lemma cheat_play_keeps_some words : ∀ self,
  CheatingWordleGame.candidates self ≠ ∅ →
  CheatingWordleGame.candidates (CheatingWordleGame.play self words).1 ≠ ∅.
Proof.
  induction words as [|w words IH]; intros self Hne; [done|].
  rewrite cheat_play_cons. cbn [fst]. by apply IH, cheat_guess_word_keeps_some.
Qed.

Lemma cheat_play_justified words : ∀ self rr,
  final_is_sole_candidate self →
  inr rr ∈ (CheatingWordleGame.play self words).2 →
  CheatingWordleGame.candidates (CheatingWordleGame.play self words).1 ≠ ∅ ∧
  ∀ c, c ∈ CheatingWordleGame.candidates (CheatingWordleGame.play self words).1 →
       score_guess c (guess rr) = inr (tokens rr).
Proof.
  induction words as [|w words IH]; intros self rr Hinv Hin.
  { cbn in Hin. by apply not_elem_of_nil in Hin. }
  rewrite cheat_play_cons in Hin |- *. cbn [fst snd] in Hin |- *.
  apply elem_of_cons in Hin as [Hhd|Htl].
  - destruct (CheatingWordleGame.guess_word self w) as [self' r] eqn:Hcall.
    cbn [fst snd] in Hhd |- *. subst r.
    destruct (cheat_guess_word_justified self w self' rr Hinv Hcall) as [Hne Hall].
    split; [by apply cheat_play_keeps_some|].
    intros c Hc. apply Hall. by apply (cheat_play_subseteq words self').
  - apply IH; [|done]. by apply cheat_guess_word_final_is_sole_candidate.
Qed.

(** X7: the host never contradicts itself. Over any sequence of calls on a
    host since its construction, every result it has returned is the
    scorer's pattern, for that guess, of every candidate it still holds,
    and once it has returned a result it holds at least one candidate. *)
Theorem cheat_results_justified_by_candidates
    (cfg : GameConfig) (words : list (list ascii)) (rr : RoundResult) :
  let host := (CheatingWordleGame.play (CheatingWordleGame.init cfg) words).1 in
  inr rr ∈ (CheatingWordleGame.play (CheatingWordleGame.init cfg) words).2 →
  CheatingWordleGame.candidates host ≠ ∅ ∧
  ∀ c, c ∈ CheatingWordleGame.candidates host →
       score_guess c (guess rr) = inr (tokens rr).
Proof.
  intros host. apply cheat_play_justified. by intros f.
Qed.

Lemma cheat_results_justified_by_candidates_witness :
  let words := [py "slate"; py "zzzzz"; py "arena"; py "crane"] in
  let rr := Build_RoundResult (py "slate") [MISS; MISS; PRESENT; MISS; PRESENT]
              5 false false in
  let host := (CheatingWordleGame.play (CheatingWordleGame.init CFG_crane) words).1 in
  inr rr ∈ (CheatingWordleGame.play (CheatingWordleGame.init CFG_crane) words).2 ∧
  CheatingWordleGame.candidates host ≠ ∅ ∧
  ∀ c, c ∈ CheatingWordleGame.candidates host →
       score_guess c (guess rr) = inr (tokens rr).
Proof.
  intros words rr host.
  assert (inr rr ∈ (CheatingWordleGame.play (CheatingWordleGame.init CFG_crane)
                      words).2) as Hin
    by (vm_compute; set_solver).
  split; [exact Hin|].
  exact (cheat_results_justified_by_candidates CFG_crane words rr Hin).
Defined.

Lemma cheat_guess_word_resolved_unchanged self word f :
  CheatingWordleGame.resolved (CheatingWordleGame.final self) = Some f →
  (CheatingWordleGame.guess_word self word).1 = self.
Proof.
  intros Hres.
  destruct (cheat_guess_word_cases self word)
    as [[_ ->]|[(f' & _ & ->)|[Hnone _]]]; [done..|congruence].
Qed.

(** X8: resolution is final. Once the host has recorded a non-empty final
    answer, no call changes it any more: candidates, final answer and round
    counter stay as they are over any sequence of calls. *)
Theorem cheat_resolved_host_never_changes
    (self : CheatingWordleGame.t) (f : list ascii) (words : list (list ascii)) :
  CheatingWordleGame.resolved (CheatingWordleGame.final self) = Some f →
  (CheatingWordleGame.play self words).1 = self.
Proof.
  intros Hres. induction words as [|w words IH]; [done|].
  rewrite cheat_play_cons. cbn [fst].
  by rewrite (cheat_guess_word_resolved_unchanged self w f Hres).
Qed.

Lemma cheat_resolved_host_never_changes_witness :
  let host := (CheatingWordleGame.guess_word (CheatingWordleGame.init CFG_ab)
                 (py "ab")).1 in
  CheatingWordleGame.resolved (CheatingWordleGame.final host) = Some (py "cd") ∧
  (CheatingWordleGame.play host [py "ab"; py "zz"; py "cd"]).1 = host.
Proof.
  intros host.
  assert (CheatingWordleGame.resolved (CheatingWordleGame.final host)
          = Some (py "cd")) as Hres by (vm_compute; reflexivity).
  split; [exact Hres|].
  exact (cheat_resolved_host_never_changes host (py "cd")
           [py "ab"; py "zz"; py "cd"] Hres).
Defined.

(** * The server's word list *)

Lemma isalpha_char_not_space c : isalpha_char c = true → Str.is_space c = false.
Proof.
  destruct c as [[] [] [] [] [] [] [] []]; vm_compute; intros H;
    first [reflexivity | discriminate H].
Qed.

Lemma lstrip_no_space w :
  Forall (λ c, Str.is_space c = false) w → Str.lstrip w = w.
Proof. destruct 1 as [|c w Hc _]; [done|]. cbn. by rewrite Hc. Qed.

Lemma rstrip_no_space w :
  Forall (λ c, Str.is_space c = false) w → Str.rstrip w = w.
Proof.
  induction 1 as [|c w Hc _ IH]; [done|].
  cbn [Str.rstrip]. rewrite IH, Hc. by destruct w.
Qed.

Lemma strip_no_space w :
  Forall (λ c, Str.is_space c = false) w → Str.strip w = w.
Proof.
  intros H. unfold Str.strip. by rewrite lstrip_no_space, rstrip_no_space.
Qed.

Lemma lower_fixed w :
  Forall (λ c, Str.lower_char c = c) w → Str.lower w = w.
Proof.
  induction 1 as [|c w Hc _ IH]; [done|].
  unfold Str.lower in *. cbn [map]. by rewrite Hc, IH.
Qed.

Lemma remove_char_lower_fixed bom w :
  Forall (λ c, Str.lower_char c = c) (remove_char bom (Str.lower w)).
Proof.
  apply Forall_forall. intros c [_ Hc]%list_elem_of_filter.
  apply list_elem_of_fmap in Hc as (c' & -> & _). apply lower_char_idem.
Qed.

Lemma load_words_elem (bom : ascii) (lines : list (list ascii)) (w : list ascii) :
  w ∈ load_words bom lines →
  length w = 5%nat ∧ forallb isalpha_char w = true ∧ normalize w = w.
Proof.
  unfold load_words. intros [Hkeep Hw]%list_elem_of_filter.
  apply andb_true_iff in Hkeep as [Hkeep Halpha].
  apply andb_true_iff in Hkeep as [_ Hlen]. apply bool_decide_eq_true_1 in Hlen.
  apply andb_true_iff in Halpha as [_ Halpha].
  split; [done|]. split; [done|].
  apply list_elem_of_fmap in Hw as (line & -> & _).
  unfold normalize. rewrite strip_no_space.
  - apply lower_fixed, remove_char_lower_fixed.
  - apply Forall_forall. intros c Hc. apply isalpha_char_not_space.
    rewrite forallb_forall in Halpha. apply Halpha. by apply list_elem_of_In.
Qed.

(** X9: every word [load_words] returns has five characters, all letters,
    and is its own normal form; so the server's word list is one of
    normalised words of one length. *)
Theorem load_words_five_letters_normalized
    (bom : ascii) (lines : list (list ascii)) (w : list ascii) :
  w ∈ load_words bom lines →
  length w = 5%nat ∧ forallb isalpha_char w = true ∧ normalize w = w.
Proof. apply load_words_elem. Qed.

Lemma load_words_five_letters_normalized_witness :
  let lines := [py "Crane" ++ ["010"%char]; ["010"%char]; py "toolong";
                py " slate  "; py "ab1de"] in
  py "slate" ∈ load_words "255"%char lines ∧
  load_words "255"%char lines = [py "crane"; py "slate"] ∧
  length (py "slate") = 5%nat ∧ normalize (py "slate") = py "slate".
Proof.
  intros lines.
  assert (py "slate" ∈ load_words "255"%char lines) as Hin
    by (vm_compute; set_solver).
  split; [exact Hin|]. split; [vm_compute; reflexivity|].
  destruct (load_words_five_letters_normalized "255"%char lines (py "slate") Hin)
    as (Hlen & _ & Hnorm).
  split; [exact Hlen|exact Hnorm].
Defined.

Lemma load_words_uniform bom lines : uniform 5 (load_words bom lines).
Proof.
  intros w Hw. by destruct (load_words_elem bom lines w Hw) as (? & _ & ?).
Qed.

(** * Games over a word list of one length *)

Lemma normal_play_answers_dictionary_words (k : nat) words : ∀ self i w,
  uniform k (word_list (NormalWordleGame.cfg self)) →
  normalize (NormalWordleGame.answer self) = NormalWordleGame.answer self →
  length (NormalWordleGame.answer self) = k →
  words !! i = Some w →
  normalize w ∈ word_list (NormalWordleGame.cfg self) →
  ∃ rr, (NormalWordleGame.play self words).2 !! i = Some (inr rr).
Proof.
  induction words as [|w0 words IH]; intros self i w Huni Hans Hlen Hi Hin; [done|].
  rewrite normal_play_cons. cbn [snd].
  destruct (normal_guess_word_frame self w0) as [Hans' Hcfg'].
  destruct i as [|i]; cbn in Hi |- *.
  - injection Hi as ->.
    destruct (Huni _ Hin) as [Hk _].
    destruct (normal_guess_word_legal self w Hans (eq_trans Hk (eq_sym Hlen)) Hin)
      as (pat & _ & Heq).
    cbn zeta in Heq. rewrite Heq. eauto.
  - apply (IH _ i w); rewrite ?Hans', ?Hcfg'; done.
Qed.

(** What the hosts of a play over a uniform list keep. *)
Lemma cheat_guess_word_over_uniform (k : nat) self word :
  uniform k (word_list (CheatingWordleGame.cfg self)) →
  CheatingWordleGame.candidates self ⊆ list_to_set (word_list (CheatingWordleGame.cfg self)) →
  CheatingWordleGame.candidates self ≠ ∅ →
  final_is_sole_candidate self →
  normalize word ∈ word_list (CheatingWordleGame.cfg self) →
  ∃ rr, (CheatingWordleGame.guess_word self word).2 = inr rr.
Proof.
  intros Huni Hsub Hne Hsole Hin.
  assert (∀ c, c ∈ CheatingWordleGame.candidates self →
               normalize c = c ∧ length c = length (normalize word)) as Hc.
  { intros c Hc%Hsub%elem_of_list_to_set.
    destruct (Huni _ Hc) as [-> ->]. by destruct (Huni _ Hin) as [-> _]. }
  destruct (cheat_guess_word_cases self word)
    as [[Hnin _]|[(f & Hres & ->)|[_ [(e & _ & [(c & Hcin & He)|Hempty])
                                      |(pat & _ & ->)]]]];
    [done| | |done|cbn; eauto].
  - apply resolved_Some in Hres. pose proof (Hsole f Hres) as Hf.
    destruct (Hc f) as [Hnf Hlf]; [rewrite Hf; set_solver|].
    destruct (normal_guess_word_legal
                (NormalWordleGame.init f (CheatingWordleGame.cfg self)) word)
      as (pat & _ & Heq); [apply normalize_idem|cbn; by rewrite Hnf|done|].
    cbn zeta in Heq. rewrite Heq. cbn. eauto.
  - destruct (Hc c Hcin) as [Hnc Hlc].
    destruct (score_guess_same_length c (normalize word)) as (pat & Hpat & _).
    { by rewrite Hnc, normalize_idem. }
    congruence.
Qed.

Lemma cheat_play_answers_dictionary_words (k : nat) words : ∀ self i w,
  uniform k (word_list (CheatingWordleGame.cfg self)) →
  CheatingWordleGame.candidates self ⊆ list_to_set (word_list (CheatingWordleGame.cfg self)) →
  CheatingWordleGame.candidates self ≠ ∅ →
  final_is_sole_candidate self →
  words !! i = Some w →
  normalize w ∈ word_list (CheatingWordleGame.cfg self) →
  ∃ rr, (CheatingWordleGame.play self words).2 !! i = Some (inr rr).
Proof.
  induction words as [|w0 words IH];
    intros self i w Huni Hsub Hne Hsole Hi Hin; [done|].
  rewrite cheat_play_cons. cbn [snd].
  destruct i as [|i]; cbn in Hi |- *.
  - injection Hi as ->.
    destruct (cheat_guess_word_over_uniform k self w) as [rr ->]; eauto.
  - destruct (cheat_guess_word_step self w0) as (Hcands & Hcfg & _).
    apply (IH _ i w); rewrite ?Hcfg; try done.
    + etrans; [|exact Hsub].
      destruct Hcands as [->|[pat ->]]; [done|apply bucket_subseteq].
    + by apply cheat_guess_word_keeps_some.
    + by apply cheat_guess_word_final_is_sole_candidate.
Qed.

(** X10: over a word list as [load_words] returns it, a game answers every
    guess of a listed word with a result, whatever was guessed before: the
    standard game on an answer from the list, and the cheating host, raise
    for no dictionary word. *)
Theorem loaded_games_answer_dictionary_words
    (bom : ascii) (lines : list (list ascii)) (rounds : Z) (answer : list ascii)
    (words : list (list ascii)) (i : nat) (w : list ascii) :
  let cfg := Build_GameConfig rounds (load_words bom lines) in
  answer ∈ load_words bom lines →
  words !! i = Some w →
  normalize w ∈ load_words bom lines →
  (∃ rr, (NormalWordleGame.play (NormalWordleGame.init answer cfg) words).2 !! i
         = Some (inr rr)) ∧
  (∃ rr, (CheatingWordleGame.play (CheatingWordleGame.init cfg) words).2 !! i
         = Some (inr rr)).
Proof.
  intros cfg Hans Hi Hin.
  pose proof (load_words_uniform bom lines) as Huni.
  destruct (Huni _ Hans) as [Hlen Hnorm].
  split.
  - apply (normal_play_answers_dictionary_words 5 words _ i w); cbn; try done.
    + apply normalize_idem.
    + by rewrite Hnorm.
  - apply (cheat_play_answers_dictionary_words 5 words _ i w); cbn; try done.
    + apply (non_empty_inhabited_L answer). by apply elem_of_list_to_set.
Qed.

Lemma loaded_games_answer_dictionary_words_witness :
  let lines := [py "Crane" ++ ["010"%char]; py "slate"; py "arena "] in
  let cfg := Build_GameConfig 6 (load_words "255"%char lines) in
  let words := [py "zzzzz"; py "SLATE"] in
  py "crane" ∈ load_words "255"%char lines ∧
  words !! 1%nat = Some (py "SLATE") ∧
  normalize (py "SLATE") ∈ load_words "255"%char lines ∧
  (∃ rr, (NormalWordleGame.play (NormalWordleGame.init (py "crane") cfg) words).2
           !! 1%nat = Some (inr rr)) ∧
  (∃ rr, (CheatingWordleGame.play (CheatingWordleGame.init cfg) words).2
           !! 1%nat = Some (inr rr)).
Proof.
  intros lines cfg words.
  assert (py "crane" ∈ load_words "255"%char lines) as Hans
    by (vm_compute; set_solver).
  assert (normalize (py "SLATE") ∈ load_words "255"%char lines) as Hin
    by (vm_compute; set_solver).
  split; [exact Hans|]. split; [reflexivity|]. split; [exact Hin|].
  exact (loaded_games_answer_dictionary_words "255"%char lines 6 (py "crane")
           words 1 (py "SLATE") Hans eq_refl Hin).
Defined.

(** * The handler *)

(** The three ways the multiplayer guess branch ends. *)
Lemma handle_guess_cases fails (room : MultiRoom.t) (self : conn)
    (word : list ascii) (player : string) :
  let room' := (handle_guess fails room self word player).1 in
  let writes := (handle_guess fails room self word player).2 in
  MultiRoom.players room' = MultiRoom.players room ∧
  MultiRoom.answer room' = MultiRoom.answer room ∧
  ((MultiRoom.over room = true ∧
    writes = [(self, Rejection "Game already over.")] ∧
    MultiRoom.over room' = true ∧
    MultiRoom.game room' = MultiRoom.game room)
   ∨ (MultiRoom.over room = false ∧
      ∃ e,
        (NormalWordleGame.guess_word (MultiRoom.game room) (Str.lower word)).2 = inl e ∧
        writes = [(self, Rejection (str_exn e))] ∧
        MultiRoom.over room' = false ∧
        MultiRoom.game room'
        = (NormalWordleGame.guess_word (MultiRoom.game room) (Str.lower word)).1)
   ∨ (MultiRoom.over room = false ∧
      ∃ rr,
        (NormalWordleGame.guess_word (MultiRoom.game room) (Str.lower word)).2 = inr rr ∧
        let data := Build_guess_data player (tokens rr) (won rr) (over rr) (remaining rr) in
        let everyone := MultiRoom.streams room ∪ {[self]} in
        let win := credited (if won rr then Some player else None) in
        writes
        = [(self, Ack data)]
          ++ map (λ h, (h, GuessEvent data)) (elements everyone)
          ++ (if win
              then map (λ h, (h, GameOver player))
                       (elements (survivors fails (GuessEvent data) everyone))
              else []) ∧
        MultiRoom.over room' = win ∧
        MultiRoom.game room'
        = (NormalWordleGame.guess_word (MultiRoom.game room) (Str.lower word)).1)).
Proof.
  unfold handle_guess.
  set (room1 := if decide (self ∉ MultiRoom.streams room) then _ else room).
  assert (MultiRoom.game room1 = MultiRoom.game room ∧
          MultiRoom.over room1 = MultiRoom.over room ∧
          MultiRoom.players room1 = MultiRoom.players room ∧
          MultiRoom.answer room1 = MultiRoom.answer room ∧
          MultiRoom.streams room1 = MultiRoom.streams room ∪ {[self]})
    as (Hg & Ho & Hp & Ha & Hs).
  { subst room1. pose proof (attach_streams (MultiRoom.streams room) self) as Hatt.
    case_decide; cbn [MultiRoom.game MultiRoom.over MultiRoom.players
                      MultiRoom.answer MultiRoom.streams]; done. }
  rewrite Ho, Hg.
  destruct (MultiRoom.over room) eqn:Hover.
  { cbn [fst snd]. split; [done|]. split; [done|]. left. by rewrite Ho. }
  destruct (NormalWordleGame.guess_word (MultiRoom.game room) (Str.lower word))
    as [game' [e|rr]] eqn:Hcall.
  { cbn [fst snd MultiRoom.players MultiRoom.answer MultiRoom.over MultiRoom.game].
    split; [done|]. split; [done|]. right. left. split; [done|].
    exists e. by rewrite ?Ho. }
  cbn [MultiRoom.over MultiRoom.game MultiRoom.streams MultiRoom.players
       MultiRoom.answer]. rewrite ?Ho. cbn [negb]. rewrite andb_true_r.
  set (data := Build_guess_data player (tokens rr) (won rr) (over rr) (remaining rr)).
  set (win := credited (if won rr then Some player else None)).
  assert (∀ (r : MultiRoom.t) msg,
    MultiRoom.players (broadcast fails r msg).1 = MultiRoom.players r ∧
    MultiRoom.answer (broadcast fails r msg).1 = MultiRoom.answer r ∧
    MultiRoom.over (broadcast fails r msg).1 = MultiRoom.over r ∧
    MultiRoom.game (broadcast fails r msg).1 = MultiRoom.game r) as Hframe by done.
  destruct win eqn:Hwin.
  - set (room2 := MultiRoom.mk _ _ _ _ true).
    destruct (Hframe room2 (GuessEvent data)) as (Hp3 & Ha3 & Ho3 & Hg3).
    pose proof (broadcast_streams fails room2 (GuessEvent data)) as Hs3.
    pose proof (broadcast_writes fails room2 (GuessEvent data)) as Hw2.
    destruct (broadcast fails room2 (GuessEvent data)) as [room3 w2].
    cbn [fst snd] in Hp3, Ha3, Ho3, Hg3, Hs3, Hw2.
    set (over_msg := GameOver (default ""%string (if won rr then Some player else None))).
    destruct (Hframe room3 over_msg) as (Hp4 & Ha4 & Ho4 & Hg4).
    pose proof (broadcast_writes fails room3 over_msg) as Hw3.
    destruct (broadcast fails room3 over_msg) as [room4 w3].
    cbn [fst snd] in Hp4, Ha4, Ho4, Hg4, Hw3 |- *.
    subst room2.
    cbn [MultiRoom.streams MultiRoom.over MultiRoom.players MultiRoom.answer
         MultiRoom.game] in *.
    split; [congruence|]. split; [congruence|]. right. right. split; [done|].
    exists rr. split; [done|]. cbn zeta. fold data. fold win. rewrite Hwin.
    split; [|split; congruence].
    rewrite Hw2, Hw3, Hs3, Hs. subst over_msg. unfold win in Hwin.
    destruct (won rr); [done|discriminate Hwin].
  - set (room2 := MultiRoom.mk _ game' _ _ _).
    destruct (Hframe room2 (GuessEvent data)) as (Hp3 & Ha3 & Ho3 & Hg3).
    pose proof (broadcast_writes fails room2 (GuessEvent data)) as Hw2.
    destruct (broadcast fails room2 (GuessEvent data)) as [room3 w2].
    cbn [fst snd] in Hp3, Ha3, Ho3, Hg3, Hw2 |- *.
    subst room2.
    cbn [MultiRoom.streams MultiRoom.over MultiRoom.players MultiRoom.answer
         MultiRoom.game] in *.
    split; [congruence|]. split; [congruence|]. right. right. split; [done|].
    exists rr. split; [done|]. cbn zeta. fold data. fold win. rewrite Hwin.
    split; [|split; congruence].
    by rewrite Hw2, Hs.
Qed.

Lemma room_guesses_cons fails room self word player rest :
  room_guesses fails room ((self, word, player) :: rest)
  = ((room_guesses fails (handle_guess fails room self word player).1 rest).1,
     (handle_guess fails room self word player).2
     :: (room_guesses fails (handle_guess fails room self word player).1 rest).2).
Proof.
  cbn [room_guesses].
  destruct (handle_guess fails room self word player) as [r ws]. cbn [fst snd].
  destruct (room_guesses fails r rest). reflexivity.
Qed.

Lemma existsb_map_const {A} (f : write → bool) (g : A → write) (l : list A) :
  (∀ x, f (g x) = false) → existsb f (map g l) = false.
Proof. intros H. induction l as [|x l IH]; [done|]. cbn. by rewrite H, IH. Qed.

(** What one multiplayer guess does to the room's [over] flag. *)
Lemma handle_guess_over fails room self word player :
  let room' := (handle_guess fails room self word player).1 in
  let writes := (handle_guess fails room self word player).2 in
  (MultiRoom.over room = true →
   MultiRoom.over room' = true ∧ existsb is_game_over writes = false) ∧
  (existsb is_game_over writes = true → MultiRoom.over room' = true) ∧
  (MultiRoom.over room = false → MultiRoom.over room' = true →
   existsb is_winning_ack writes = true).
Proof.
  destruct (handle_guess_cases fails room self word player)
    as (_ & _ & [(Ho & -> & Ho' & _)
                |[(Ho & e & _ & -> & Ho' & _)|(Ho & rr & _ & Hw & Ho' & _)]]);
    cbn zeta.
  - rewrite Ho'. split; [done|]. split; [done|]. congruence.
  - rewrite Ho'. split; [congruence|]. split; [done|]. congruence.
  - cbn zeta in Hw, Ho'. rewrite Hw, Ho'.
    split; [congruence|].
    destruct (credited (if won rr then Some player else None)) eqn:Hwin.
    + split; [done|]. intros _ _. cbn [app existsb is_winning_ack snd d_won].
      destruct (won rr); [done|discriminate Hwin].
    + split; [|done]. rewrite app_nil_r. cbn [app existsb is_game_over snd].
      by rewrite existsb_map_const.
Qed.

Lemma room_guesses_over_stays fails reqs : ∀ room,
  MultiRoom.over room = true →
  MultiRoom.over (room_guesses fails room reqs).1 = true ∧
  filter (λ ws, existsb is_game_over ws = true) (room_guesses fails room reqs).2 = [].
Proof.
  induction reqs as [|[[self word] player] reqs IH]; intros room Ho; [done|].
  rewrite room_guesses_cons. cbn [fst snd].
  destruct (handle_guess_over fails room self word player) as [H1 _].
  destruct (H1 Ho) as [Ho' Hnone].
  destruct (IH _ Ho') as [Hend Hrest].
  split; [done|]. rewrite filter_cons, Hrest.
  destruct (decide _) as [Hgo|_]; [congruence|done].
Qed.

(** X11: single winner. Over any run of guesses on a room, at most one
    request is followed by "game_over" messages, and once the room is over
    it stays over. *)
Theorem room_game_over_at_most_once fails (room : MultiRoom.t)
    (reqs : list (conn * list ascii * string)) :
  (length (filter (λ ws, existsb is_game_over ws = true)
             (room_guesses fails room reqs).2) ≤ 1)%nat ∧
  (MultiRoom.over room = true → MultiRoom.over (room_guesses fails room reqs).1 = true).
Proof.
  split; [|by intros Ho; apply room_guesses_over_stays].
  revert room. induction reqs as [|[[self word] player] reqs IH]; intros room;
    [cbn; lia|].
  rewrite room_guesses_cons. cbn [fst snd].
  destruct (handle_guess_over fails room self word player) as (_ & H2 & _).
  rewrite filter_cons.
  destruct (decide (existsb is_game_over _ = true)) as [Hgo|Hno]; [|apply IH].
  destruct (room_guesses_over_stays fails reqs _ (H2 Hgo)) as [_ ->]. cbn. lia.
Qed.

(** X12: a room is closed by a winning guess and by nothing else. If no
    ack in a run of guesses on an open room reports a win, the room is
    still open after the run, however many rounds its game has played. *)
Theorem room_closed_only_by_win fails (room : MultiRoom.t)
    (reqs : list (conn * list ascii * string)) :
  MultiRoom.over room = false →
  Forall (λ ws, existsb is_winning_ack ws = false) (room_guesses fails room reqs).2 →
  MultiRoom.over (room_guesses fails room reqs).1 = false.
Proof.
  revert room.
  induction reqs as [|[[self word] player] reqs IH]; intros room Ho Hall; [done|].
  rewrite room_guesses_cons in Hall |- *. cbn [fst snd] in Hall |- *.
  apply Forall_cons in Hall as [Hhd Htl].
  destruct (handle_guess_over fails room self word player) as (_ & _ & H3).
  apply IH; [|done].
  destruct (MultiRoom.over (handle_guess fails room self word player).1) eqn:Ho';
    [|done].
  rewrite (H3 Ho eq_refl) in Hhd. done.
Qed.

Lemma room_closed_only_by_win_witness :
  let reqs := replicate 7 (1%nat, py "slate", "ann"%string) in
  let room := (room_guesses (λ _ _, false) room_crane reqs).1 in
  MultiRoom.over room_crane = false ∧
  Forall (λ ws, existsb is_winning_ack ws = false)
         (room_guesses (λ _ _, false) room_crane reqs).2 ∧
  MultiRoom.over room = false ∧
  NormalWordleGame.round (MultiRoom.game room) = 7.
Proof.
  intros reqs room.
  assert (Forall (λ ws, existsb is_winning_ack ws = false)
            (room_guesses (λ _ _, false) room_crane reqs).2) as Hall.
  { apply Forall_forall. intros ws Hws. vm_compute in Hws.
    repeat (apply elem_of_cons in Hws as [->|Hws]; [reflexivity|]).
    by apply not_elem_of_nil in Hws. }
  split; [reflexivity|]. split; [exact Hall|].
  split; [|vm_compute; reflexivity].
  exact (room_closed_only_by_win (λ _ _, false) room_crane reqs eq_refl Hall).
Defined.

Lemma find_spec {A} (gid : option string) (m : gmap string A) :
  match gid ≫= (λ k, pair k <$> m !! k) with
  | Some (k, v) => gid = Some k ∧ m !! k = Some v
  | None => ∀ k, gid = Some k → m !! k = None
  end.
Proof.
  destruct gid as [k|]; cbn; [|done].
  destruct (m !! k) eqn:Hk; cbn; [done|]. by intros ? [= <-].
Qed.

Lemma handle_guess_writes_shape fails room self word player :
  ∃ m rest,
    (handle_guess fails room self word player).2 = (self, m) :: rest ∧
    is_event (InRoom m) = false ∧
    Forall (λ w, is_event (InRoom w.2) = true) rest.
Proof.
  destruct (handle_guess_cases fails room self word player)
    as (_ & _ & [(_ & -> & _)|[(_ & e & _ & -> & _)|(_ & rr & _ & Hw & _)]]);
    [by eexists _, []..|].
  cbn zeta in Hw. rewrite Hw. do 2 eexists. split; [reflexivity|]. split; [done|].
  apply Forall_app. split.
  - apply Forall_forall. by intros w (h & -> & _)%list_elem_of_fmap.
  - destruct (credited _); [|constructor].
    apply Forall_forall. by intros w (h & -> & _)%list_elem_of_fmap.
Qed.

(** X13: every request is answered. The first thing the handler writes
    for a request is one message without an "event" key, to the requesting
    connection; whatever else it writes are events, and it writes none
    unless the request names an existing room. *)
Theorem handle_answers_requester_first WL fails
    (st : server) (self : conn) (req : request) (rand_id : string) (pick : nat) :
  ∃ r rest,
    (handle WL fails st self req rand_id pick).2 = (self, r) :: rest ∧
    is_event r = false ∧
    Forall (λ w, is_event w.2 = true) rest ∧
    ((∀ k, game_id req = Some k → multis st !! k = None) → rest = []).
Proof.
  unfold handle, refuse.
  destruct (decide (action req = Some "create"%string)) as [?|?].
  { destruct (decide (_ = "normal"%string)) as [?|?]; [destruct (choice _ _)|];
      [..|destruct (decide (_ = "cheat"%string)) as [?|?]]; by eexists _, []. }
  destruct (decide (action req = Some "create_multi"%string)) as [?|?].
  { destruct (choice _ _); by eexists _, []. }
  destruct (decide (action req = Some "join"%string)) as [?|?].
  { pose proof (find_spec (game_id req) (multis st)) as Hfind.
    destruct (game_id req ≫= _) as [[k room]|]; [|by eexists _, []].
    destruct Hfind as [Hgid Hroom]. cbn zeta.
    destruct (broadcast_reply _ _ _) as [room' w2] eqn:Hb.
    unfold broadcast_reply in Hb. injection Hb as _ <-.
    do 2 eexists. split; [reflexivity|]. split; [done|]. split.
    - apply Forall_forall. by intros w (h & -> & _)%list_elem_of_fmap.
    - intros Hnone. rewrite (Hnone k Hgid) in Hroom. done. }
  destruct (decide (action req = Some "guess"%string)) as [?|?]; [|by eexists _, []].
  pose proof (find_spec (game_id req) (multis st)) as Hfind.
  destruct (game_id req ≫= _) as [[k room]|].
  - destruct Hfind as [Hgid Hroom].
    destruct (handle_guess_writes_shape (λ h m, fails h (InRoom m)) room self
                (default [] (word req)) (default "anon"%string (player req)))
      as (m & rest & Hw & Hm & Hrest).
    destruct (handle_guess _ _ _ _ _) as [room' ws]. cbn [snd] in Hw. subst ws.
    cbn [map fst snd]. do 2 eexists. split; [reflexivity|]. split; [done|]. split.
    + apply Forall_forall. intros w (w' & -> & Hw')%list_elem_of_fmap.
      rewrite Forall_forall in Hrest. by apply Hrest.
    + intros Hnone. rewrite (Hnone k Hgid) in Hroom. done.
  - destruct (game_id req ≫= _) as [[k game]|]; [|by eexists _, []].
    destruct (session_guess _ _) as [game' [err|rr]]; by eexists _, [].
Qed.

(** X14: a request touches one id. Whatever the request, every session and
    every room stored under another id than the one it creates (for
    "create" and "create_multi") or names (for the others) is left as it
    is. *)
Theorem handle_touches_one_id WL fails
    (st : server) (self : conn) (req : request) (rand_id : string) (pick : nat)
    (k : string) :
  (if decide (action req = Some "create"%string
              ∨ action req = Some "create_multi"%string)
   then k ≠ rand_id else Some k ≠ game_id req) →
  multis (handle WL fails st self req rand_id pick).1 !! k = multis st !! k ∧
  sessions (handle WL fails st self req rand_id pick).1 !! k = sessions st !! k.
Proof.
  intros Hk. unfold handle, refuse.
  destruct (decide (action req = Some "create"%string)) as [Hc|Hc].
  { rewrite decide_True in Hk by (by left).
    destruct (decide (_ = "normal"%string)) as [?|?]; [destruct (choice _ _)|];
      [..|destruct (decide (_ = "cheat"%string)) as [?|?]];
      cbn [fst multis sessions]; rewrite ?lookup_insert_ne by done; done. }
  destruct (decide (action req = Some "create_multi"%string)) as [Hm|Hm].
  { rewrite decide_True in Hk by (by right).
    destruct (choice _ _); cbn [fst multis sessions];
      rewrite ?lookup_insert_ne by done; done. }
  rewrite decide_False in Hk by (by intros [?|?]).
  destruct (decide (action req = Some "join"%string)) as [?|?].
  { pose proof (find_spec (game_id req) (multis st)) as Hfind.
    destruct (game_id req ≫= _) as [[k' room]|]; [|done].
    destruct Hfind as [Hgid _]. cbn zeta.
    destruct (broadcast_reply _ _ _) as [room' w2].
    cbn [fst multis sessions]. rewrite lookup_insert_ne; [done|]. congruence. }
  destruct (decide (action req = Some "guess"%string)) as [?|?]; [|done].
  pose proof (find_spec (game_id req) (multis st)) as Hfind.
  destruct (game_id req ≫= _) as [[k' room]|].
  - destruct Hfind as [Hgid _].
    destruct (handle_guess _ _ _ _ _) as [room' ws].
    cbn [fst multis sessions]. rewrite lookup_insert_ne; [done|]. congruence.
  - pose proof (find_spec (game_id req) (sessions st)) as Hfind'.
    destruct (game_id req ≫= _) as [[k' game]|]; [|done].
    destruct Hfind' as [Hgid _].
    destruct (session_guess _ _) as [game' r].
    cbn [fst multis sessions]. rewrite lookup_insert_ne; [done|]. congruence.
Qed.

Lemma handle_touches_one_id_witness :
  let req := guess_request "1111" "ann" (py "slate") in
  let st' := (handle WL_crane (λ _ _, false) store_crane 1%nat req "4444" 0).1 in
  (if decide (action req = Some "create"%string
              ∨ action req = Some "create_multi"%string)
   then "3333"%string ≠ "4444"%string
   else Some "3333"%string ≠ game_id req) ∧
  multis st' !! "3333"%string = multis store_crane !! "3333"%string ∧
  sessions st' !! "3333"%string = sessions store_crane !! "3333"%string.
Proof.
  intros req st'.
  assert (if decide (action req = Some "create"%string
                     ∨ action req = Some "create_multi"%string)
          then "3333"%string ≠ "4444"%string
          else Some "3333"%string ≠ game_id req) as Hk.
  { rewrite decide_False; [done|]. by intros [?|?]. }
  split; [exact Hk|].
  exact (handle_touches_one_id WL_crane (λ _ _, false) store_crane 1%nat req
           "4444"%string 0%nat "3333"%string Hk).
Defined.




Lemma broadcast_reply_streams fails room msg :
  ∀ h, h ∈ MultiRoom.streams (broadcast_reply fails room msg).1
       ↔ h ∈ MultiRoom.streams room ∧ fails h msg = false.
Proof.
  intros h. unfold broadcast_reply. cbn [fst MultiRoom.streams]. rewrite discard_all.
  rewrite elem_of_difference, elem_of_list_to_set, list_elem_of_filter, elem_of_elements.
  destruct (fails h msg); naive_solver.
Qed.

(** X16: a join to an existing room adds the player (or "anon") and the
    connection and leaves the room's game and [over] flag as they are; the
    joiner is told first, then every connection of the room, the joiner's
    included, is sent the join event; both carry the same list of players,
    with the joiner in it. The connections on which the event could not be
    written are dropped from the room. *)
Theorem handle_join_effect WL fails
    (st : server) (self : conn) (req : request) (rand_id : string) (pick : nat)
    (k : string) (room : MultiRoom.t) :
  action req = Some "join"%string →
  game_id req = Some k →
  multis st !! k = Some room →
  let who := default "anon"%string (player req) in
  let members := elements (MultiRoom.players room ∪ {[who]}) in
  let everyone := MultiRoom.streams room ∪ {[self]} in
  ∃ room',
    handle WL fails st self req rand_id pick
    = (Build_server (sessions st) (<[k := room']> (multis st)),
       (self, Joined who members)
       :: map (λ h, (h, JoinEvent who members)) (elements everyone)) ∧
    who ∈ members ∧
    MultiRoom.players room' = MultiRoom.players room ∪ {[who]} ∧
    MultiRoom.game room' = MultiRoom.game room ∧
    MultiRoom.over room' = MultiRoom.over room ∧
    ∀ h, h ∈ MultiRoom.streams room'
         ↔ h ∈ everyone ∧ fails h (JoinEvent who members) = false.
Proof.
  intros Hact Hgid Hroom who members everyone. unfold handle.
  rewrite Hact, Hgid. cbn [mbind option_bind]. rewrite Hroom.
  cbn [fmap option_fmap option_map].
  repeat (rewrite decide_False by done). rewrite decide_True by done.
  cbn zeta. cbn [MultiRoom.players]. fold who. fold members.
  rewrite (attach_streams (MultiRoom.streams room) self). fold everyone.
  set (room1 := MultiRoom.mk _ _ _ everyone _).
  pose proof (broadcast_reply_streams fails room1 (JoinEvent who members)) as Hs.
  destruct (broadcast_reply fails room1 (JoinEvent who members))
    as [room' w2] eqn:Hb.
  unfold broadcast_reply in Hb. injection Hb as Hroom' <-.
  exists room'. split; [done|]. split.
  { subst members. apply elem_of_elements. set_solver. }
  cbn [fst] in Hs. rewrite <- Hroom' in Hs |- *.
  cbn [MultiRoom.players MultiRoom.game MultiRoom.over]. done.
Qed.

Lemma handle_join_effect_witness :
  let req := join_request "3333" "bob" in
  let room := MultiRoom.init (CFG WL_crane) (py "arena") in
  action req = Some "join"%string ∧
  game_id req = Some "3333"%string ∧
  multis store_crane !! "3333"%string = Some room ∧
  ∃ room',
    handle WL_crane (λ _ _, false) store_crane 7%nat req "4444" 0
    = (Build_server (sessions store_crane)
         (<["3333"%string := room']> (multis store_crane)),
       [(7%nat, Joined "bob" ["bob"%string]);
        (7%nat, JoinEvent "bob" ["bob"%string])]) ∧
    MultiRoom.game room' = MultiRoom.game room ∧
    MultiRoom.over room' = MultiRoom.over room.
Proof.
  intros req room.
  assert (multis store_crane !! "3333"%string = Some room) as Hroom
    by (vm_compute; reflexivity).
  split; [reflexivity|]. split; [reflexivity|]. split; [exact Hroom|].
  destruct (handle_join_effect WL_crane (λ _ _, false) store_crane 7%nat req
              "4444"%string 0%nat "3333"%string room eq_refl eq_refl Hroom)
    as (room' & Hcall & _ & _ & Hgame & Hover & _).
  exists room'. split; [|split; assumption].
  rewrite Hcall. f_equal.
Defined.

(** X17: what the handler refuses, it refuses without effect. A join
    naming no room, a guess naming neither a room nor a session, an
    unknown action or mode, and a creation that has to draw from an empty
    word list are each answered by one rejection to the requester, and the
    stores stay as they are. *)
Theorem handle_refuses_without_effect WL fails
    (st : server) (self : conn) (req : request) (rand_id : string) (pick : nat) :
  (action req = Some "join"%string ∧
   ∀ k, game_id req = Some k → multis st !! k = None)
  ∨ (action req = Some "guess"%string ∧
     ∀ k, game_id req = Some k → multis st !! k = None ∧ sessions st !! k = None)
  ∨ (action req ≠ Some "create"%string ∧ action req ≠ Some "create_multi"%string ∧
     action req ≠ Some "join"%string ∧ action req ≠ Some "guess"%string)
  ∨ (action req = Some "create"%string ∧
     default "normal"%string (mode req) ≠ "normal"%string ∧
     default "normal"%string (mode req) ≠ "cheat"%string)
  ∨ (WL = [] ∧
     (action req = Some "create_multi"%string
      ∨ (action req = Some "create"%string ∧
         default "normal"%string (mode req) = "normal"%string))) →
  ∃ error,
    handle WL fails st self req rand_id pick = (st, [(self, InRoom (Rejection error))]).
Proof.
  unfold handle, refuse.
  intros [[Hact Hnone]|[[Hact Hnone]|[(Hc & Hm & Hj & Hg)
                                    |[(Hact & Hn & Hc)|[-> [Hact|[Hact Hn]]]]]]].
  - rewrite Hact. repeat (rewrite decide_False by done). rewrite decide_True by done.
    pose proof (find_spec (game_id req) (multis st)) as Hfind.
    destruct (game_id req ≫= _) as [[k room]|]; [|eauto].
    destruct Hfind as [Hgid Hroom]. rewrite (Hnone k Hgid) in Hroom. done.
  - rewrite Hact. repeat (rewrite decide_False by done). rewrite decide_True by done.
    pose proof (find_spec (game_id req) (multis st)) as Hfind.
    destruct (game_id req ≫= _) as [[k room]|].
    { destruct Hfind as [Hgid Hroom].
      destruct (Hnone k Hgid) as [Hm _]. rewrite Hm in Hroom. done. }
    pose proof (find_spec (game_id req) (sessions st)) as Hfind'.
    destruct (game_id req ≫= _) as [[k game]|]; [|eauto].
    destruct Hfind' as [Hgid Hgame].
    destruct (Hnone k Hgid) as [_ Hs]. rewrite Hs in Hgame. done.
  - repeat (rewrite decide_False by done). eauto.
  - rewrite Hact, decide_True by done. repeat (rewrite decide_False by done). eauto.
  - rewrite Hact. rewrite decide_False by done. rewrite decide_True by done.
    unfold choice. cbn. eauto.
  - rewrite Hact, decide_True by done. rewrite Hn, decide_True by done.
    unfold choice. cbn. eauto.
Qed.

Lemma handle_refuses_without_effect_witness :
  let req := guess_request "9999" "ann" (py "slate") in
  (action req = Some "guess"%string ∧
   ∀ k, game_id req = Some k →
        multis store_crane !! k = None ∧ sessions store_crane !! k = None) ∧
  handle WL_crane (λ _ _, false) store_crane 1%nat req "4444" 0
  = (store_crane, [(1%nat, InRoom (Rejection "Unknown game ID 9999"))]).
Proof.
  intros req.
  assert (action req = Some "guess"%string ∧
          ∀ k, game_id req = Some k →
               multis store_crane !! k = None ∧ sessions store_crane !! k = None) as H.
  { split; [reflexivity|]. intros k [= <-]. split; vm_compute; reflexivity. }
  split; [exact H|].
  destruct (handle_refuses_without_effect WL_crane (λ _ _, false) store_crane 1%nat
              req "4444"%string 0%nat (or_intror (or_introl H))) as [error Hcall].
  rewrite Hcall. vm_compute in Hcall. injection Hcall as <-. reflexivity.
Defined.

(** * The command-line game *)

(** A returned result, in full. *)
Lemma normal_guess_word_inr (self self' : NormalWordleGame.t)
    (word : list ascii) (rr : RoundResult) :
  normalize (NormalWordleGame.answer self) = NormalWordleGame.answer self →
  NormalWordleGame.guess_word self word = (self', inr rr) →
  self' = NormalWordleGame.mk (NormalWordleGame.answer self) (NormalWordleGame.cfg self)
            (NormalWordleGame.round self + 1) (NormalWordleGame.history self ++ [rr]) ∧
  remaining rr = max_rounds (NormalWordleGame.cfg self) - (NormalWordleGame.round self + 1) ∧
  over rr = won rr || bool_decide (max_rounds (NormalWordleGame.cfg self)
                                   ≤ NormalWordleGame.round self + 1).
Proof.
  intros Hans Hcall.
  destruct (decide (normalize word ∈ word_list (NormalWordleGame.cfg self)))
    as [Hin|Hnin]; [|by rewrite normal_guess_word_rejected in Hcall].
  destruct (decide (length (normalize word) = length (NormalWordleGame.answer self)))
    as [Hlen|Hlen].
  2:{ unfold NormalWordleGame.guess_word in Hcall.
      by rewrite decide_True in Hcall. }
  destruct (normal_guess_word_legal self word Hans Hlen Hin) as (pat & Hpat & Heq).
  cbn zeta in Heq. rewrite Heq in Hcall. by injection Hcall as <- <-.
Qed.

Lemma cli_game_loop_bounds player inputs : ∀ game out fin,
  normal_inv game →
  0 ≤ NormalWordleGame.round game < max_rounds (NormalWordleGame.cfg game) →
  Cli.game_loop player game inputs = (out, fin) →
  (∀ g rr, Cli.ShownResult g rr ∈ out →
           0 ≤ remaining rr
           < max_rounds (NormalWordleGame.cfg game) - NormalWordleGame.round game) ∧
  NormalWordleGame.round game + Z.of_nat (length (filter (λ s, Cli.is_result s = true) out))
  ≤ max_rounds (NormalWordleGame.cfg game) ∧
  ∀ p n w, fin = Cli.Recorded p n w →
           Z.of_nat n = NormalWordleGame.round game
                        + Z.of_nat (length (filter (λ s, Cli.is_result s = true) out)) ∧
           (1 ≤ length (filter (λ s, Cli.is_result s = true) out))%nat.
Proof.
  induction inputs as [|line inputs IH]; intros game out fin Hinv Hround Hloop;
    cbn [Cli.game_loop] in Hloop.
  { injection Hloop as <- <-. cbn. split; [by intros ?? ?%not_elem_of_nil|].
    split; [lia|done]. }
  destruct (negb _); [by apply IH|].
  destruct (NormalWordleGame.guess_word game _) as [game' [e|rr]] eqn:Hcall.
  - destruct (Cli.game_loop player game' inputs) as [out' fin'] eqn:Hrest.
    injection Hloop as <- <-.
    pose proof (normal_guess_word_inv game (Str.lower (Str.strip line)) Hinv) as Hinv'.
    destruct (normal_guess_word_frame game (Str.lower (Str.strip line))) as [_ Hcfg].
    rewrite Hcall in Hinv', Hcfg. cbn [fst] in Hinv', Hcfg.
    assert (NormalWordleGame.round game' = NormalWordleGame.round game) as Hr.
    { destruct (decide (normalize (Str.lower (Str.strip line))
                        ∈ word_list (NormalWordleGame.cfg game))) as [Hin|Hnin].
      - destruct (decide (length (normalize (Str.lower (Str.strip line)))
                          = length (NormalWordleGame.answer game))) as [Hlen|Hlen].
        + destruct (normal_guess_word_legal game _ (proj1 Hinv) Hlen Hin)
            as (pat & _ & Heq).
          cbn zeta in Heq. rewrite Heq in Hcall. done.
        + unfold NormalWordleGame.guess_word in Hcall.
          rewrite decide_True in Hcall by done. by injection Hcall as <- _.
      - rewrite normal_guess_word_rejected in Hcall by done.
        by injection Hcall as <- _. }
    destruct (IH game' out' fin' Hinv') as (H1 & H2 & H3);
      [rewrite Hcfg, Hr; lia|done|].
    rewrite Hcfg, Hr in H1, H2. rewrite Hr in H3.
    rewrite filter_cons. cbn [Cli.is_result].
    rewrite decide_False by done.
    split; [|done]. intros g rr [?|Hin]%elem_of_cons; [done|]. by eapply H1.
  - pose proof (normal_guess_word_inv game (Str.lower (Str.strip line)) Hinv) as Hinv'.
    rewrite Hcall in Hinv'. cbn [fst] in Hinv'.
    destruct (normal_guess_word_inr game game' _ rr (proj1 Hinv) Hcall)
      as (Hgame' & Hrem & Hover).
    assert (NormalWordleGame.round game' = NormalWordleGame.round game + 1) as Hr
      by (by rewrite Hgame').
    assert (NormalWordleGame.cfg game' = NormalWordleGame.cfg game) as Hcfg
      by (by rewrite Hgame').
    pose proof Hinv' as [_ Hhist].
    assert (∀ (b : bool) p n w,
      Cli.Recorded player (length (NormalWordleGame.history game')) b
      = Cli.Recorded p n w →
      Z.of_nat n = NormalWordleGame.round game
                   + Z.of_nat (length (filter (λ s, Cli.is_result s = true)
                                         [Cli.ShownResult (Str.lower (Str.strip line)) rr])) ∧
      (1 ≤ length (filter (λ s, Cli.is_result s = true)
                     [Cli.ShownResult (Str.lower (Str.strip line)) rr]))%nat)
      as Hrec.
    { intros b p n w [= _ <- _]. rewrite Hhist, Hr. cbn.
      rewrite decide_True by done. cbn. lia. }
    assert (∀ g rr', Cli.ShownResult g rr'
                     ∈ [Cli.ShownResult (Str.lower (Str.strip line)) rr] →
            0 ≤ remaining rr'
            < max_rounds (NormalWordleGame.cfg game) - NormalWordleGame.round game)
      as Hone.
    { intros g rr' [= _ <-]%list_elem_of_singleton. rewrite Hrem. lia. }
    destruct (won rr) eqn:Hwon.
    { injection Hloop as <- <-. split; [done|].
      split; [cbn; rewrite decide_True by done; cbn; lia|]. apply Hrec. }
    destruct (over rr) eqn:Hov.
    { injection Hloop as <- <-. split; [done|].
      split; [cbn; rewrite decide_True by done; cbn; lia|]. apply Hrec. }
    cbn [orb] in Hover. symmetry in Hover. apply bool_decide_eq_false_1 in Hover.
    destruct (Cli.game_loop player game' inputs) as [out' fin'] eqn:Hrest.
    injection Hloop as <- <-.
    destruct (IH game' out' fin') as (H1 & H2 & H3); [done|rewrite Hcfg, Hr; lia|done|].
    rewrite Hcfg, Hr in H1, H2. rewrite Hr in H3.
    rewrite filter_cons. cbn [Cli.is_result]. rewrite decide_True by done.
    cbn [length]. split; [|split; [lia|]].
    + intros g rr' [[= _ <-]|Hin]%elem_of_cons; [rewrite Hrem; lia|].
      specialize (H1 g rr' Hin). lia.
    + intros p n w Hfin. destruct (H3 p n w Hfin) as [-> _]. lia.
Qed.

(** X18: the command-line game stops in time. Whatever is typed, [main]
    shows at most six results, each with between 0 and 5 attempts
    remaining, and when it records a score the rounds recorded are the
    number of results shown, between 1 and 6. *)
Theorem cli_main_stops_within_six_rounds
    (lines : list (list ascii)) (pick : nat) (inputs : list (list ascii))
    (out : list Cli.shown) (fin : Cli.ending) :
  Cli.main lines pick inputs = Some (out, fin) →
  (∀ g rr, Cli.ShownResult g rr ∈ out → 0 ≤ remaining rr ≤ 5) ∧
  (length (filter (λ s, Cli.is_result s = true) out) ≤ 6)%nat ∧
  ∀ p n w, fin = Cli.Recorded p n w →
           n = length (filter (λ s, Cli.is_result s = true) out) ∧ (1 ≤ n ≤ 6)%nat.
Proof.
  unfold Cli.main. intros Hmain.
  destruct (Cli.load_words lines !! _) as [answer|]; [|done].
  destruct inputs as [|name inputs].
  { injection Hmain as <- <-. cbn. split; [by intros ?? ?%not_elem_of_nil|].
    split; [lia|done]. }
  injection Hmain as Hloop.
  apply cli_game_loop_bounds in Hloop as (H1 & H2 & H3);
    [|apply normal_init_inv|cbn; lia].
  cbn in H1, H2, H3.
  split; [|split; [lia|]].
  - intros g rr Hin. specialize (H1 g rr Hin). lia.
  - intros p n w Hfin. destruct (H3 p n w Hfin) as [Hn Hpos]. lia.
Qed.

Lemma cli_main_stops_within_six_rounds_witness :
  let lines := [py "crane" ++ ["010"%char]; ["010"%char]; py " slate "] in
  let inputs := [py "ann"; py "Slate"; py ""; py "zzzzz"; py " CRANE"; py "slate"] in
  let out :=
    [Cli.ShownResult (py "slate")
       (Build_RoundResult (py "slate") [MISS; MISS; HIT; MISS; HIT] 5 false false);
     Cli.ShownError (ValueError "Word not found in dictionary.");
     Cli.ShownResult (py "crane")
       (Build_RoundResult (py "crane") [HIT; HIT; HIT; HIT; HIT] 4 true true)] in
  let fin := Cli.Recorded (py "ann") 2 true in
  Cli.main lines 0 inputs = Some (out, fin) ∧
  (∀ g rr, Cli.ShownResult g rr ∈ out → 0 ≤ remaining rr ≤ 5) ∧
  ((2 = length (filter (λ s, Cli.is_result s = true) out))%nat ∧ (1 ≤ 2 ≤ 6)%nat).
Proof.
  intros lines inputs out fin.
  assert (Cli.main lines 0 inputs = Some (out, fin)) as Hmain
    by (vm_compute; reflexivity).
  split; [exact Hmain|].
  destruct (cli_main_stops_within_six_rounds lines 0 inputs out fin Hmain)
    as (Hrem & _ & Hrec).
  split; [exact Hrem|]. exact (Hrec (py "ann") 2%nat true eq_refl).
Defined.

Lemma cli_game_loop_never_won player inputs : ∀ game out fin,
  normalize (NormalWordleGame.answer game) = NormalWordleGame.answer game →
  NormalWordleGame.answer game ∉ word_list (NormalWordleGame.cfg game) →
  Cli.game_loop player game inputs = (out, fin) →
  (∀ g rr, Cli.ShownResult g rr ∈ out → won rr = false) ∧
  ∀ p n, fin ≠ Cli.Recorded p n true.
Proof.
  induction inputs as [|line inputs IH]; intros game out fin Hans Hnin Hloop;
    cbn [Cli.game_loop] in Hloop.
  { injection Hloop as <- <-. split; [by intros ?? ?%not_elem_of_nil|done]. }
  destruct (negb _); [by eapply IH|].
  destruct (normal_guess_word_frame game (Str.lower (Str.strip line))) as [Hans' Hcfg'].
  destruct (NormalWordleGame.guess_word game _) as [game' [e|rr]] eqn:Hcall;
    cbn [fst] in Hans', Hcfg'.
  - destruct (Cli.game_loop player game' inputs) as [out' fin'] eqn:Hrest.
    injection Hloop as <- <-.
    destruct (IH game' out' fin') as [H1 H2]; rewrite ?Hans', ?Hcfg'; try done.
    split; [|done]. intros g rr [?|Hin]%elem_of_cons; [done|]. by eapply H1.
  - pose proof Hcall as Hret.
    apply normal_guess_word_returned in Hret as (Hin & _ & Hwon); [|done].
    assert (won rr = false) as Hlost.
    { destruct (won rr); [|done]. exfalso. apply Hnin.
      by rewrite <- (proj1 Hwon eq_refl). }
    rewrite Hlost in Hloop.
    destruct (over rr).
    { injection Hloop as <- <-. split; [|done].
      by intros g rr' [= _ <-]%list_elem_of_singleton. }
    destruct (Cli.game_loop player game' inputs) as [out' fin'] eqn:Hrest.
    injection Hloop as <- <-.
    destruct (IH game' out' fin') as [H1 H2]; rewrite ?Hans', ?Hcfg'; try done.
    split; [|done]. intros g rr' [[= _ <-]|Hout]%elem_of_cons; [done|]. by eapply H1.
Qed.

(** X19: the command-line word list is not lower-cased, the guesses are.
    When the answer drawn is a word whose normal form is not itself in the
    list (a capitalised entry, say), no guess wins: no result shown has
    [won] set and no score is recorded as a win. *)
Theorem cli_answer_outside_its_list_cannot_be_won
    (lines : list (list ascii)) (pick : nat) (inputs : list (list ascii))
    (answer : list ascii) (out : list Cli.shown) (fin : Cli.ending) :
  Cli.load_words lines !! (pick mod length (Cli.load_words lines))%nat = Some answer →
  normalize answer ∉ Cli.load_words lines →
  Cli.main lines pick inputs = Some (out, fin) →
  (∀ g rr, Cli.ShownResult g rr ∈ out → won rr = false) ∧
  ∀ p n, fin ≠ Cli.Recorded p n true.
Proof.
  unfold Cli.main. intros -> Hnin Hmain.
  destruct inputs as [|name inputs].
  { injection Hmain as <- <-. split; [by intros ?? ?%not_elem_of_nil|done]. }
  injection Hmain as Hloop.
  apply cli_game_loop_never_won in Hloop; [done|apply normalize_idem|done].
Qed.

Lemma cli_answer_outside_its_list_cannot_be_won_witness :
  let lines := [py "Crane"; py "slate"] in
  let inputs := [py "ann"; py "crane"; py "Crane"; py "slate"] in
  let out :=
    [Cli.ShownError (ValueError "Word not found in dictionary.");
     Cli.ShownError (ValueError "Word not found in dictionary.");
     Cli.ShownResult (py "slate")
       (Build_RoundResult (py "slate") [MISS; MISS; HIT; MISS; HIT] 5 false false)] in
  Cli.load_words lines !! (0 mod length (Cli.load_words lines))%nat = Some (py "Crane") ∧
  normalize (py "Crane") ∉ Cli.load_words lines ∧
  Cli.main lines 0 inputs = Some (out, Cli.EndOfInput) ∧
  (∀ g rr, Cli.ShownResult g rr ∈ out → won rr = false).
Proof.
  intros lines inputs out.
  assert (normalize (py "Crane") ∉ Cli.load_words lines) as Hnin
    by (vm_compute; set_solver).
  assert (Cli.main lines 0 inputs = Some (out, Cli.EndOfInput)) as Hmain
    by (vm_compute; reflexivity).
  split; [reflexivity|]. split; [exact Hnin|]. split; [exact Hmain|].
  exact (proj1 (cli_answer_outside_its_list_cannot_be_won lines 0 inputs (py "Crane")
                  out Cli.EndOfInput eq_refl Hnin Hmain)).
Defined.

Lemma lstrip_idem w : Str.lstrip (Str.lstrip w) = Str.lstrip w.
Proof.
  destruct (Str.lstrip w) as [|c w'] eqn:E; [done|].
  apply lstrip_head in E. cbn. by rewrite E.
Qed.

(** X20: the command-line [load_words] keeps the lines that are not
    blank, stripped: every word it returns is non-empty and has no
    whitespace at either end, and a file of blank lines gives no word. *)
Theorem cli_load_words_stripped_nonblank (lines : list (list ascii)) :
  (∀ w, w ∈ Cli.load_words lines →
        w ≠ [] ∧ Str.strip w = w ∧ ∃ line, line ∈ lines ∧ w = Str.strip line) ∧
  (Forall (λ line, Str.strip line = []) lines ↔ Cli.load_words lines = []).
Proof.
  unfold Cli.load_words. split.
  - intros w (line & -> & [Hkeep Hline]%list_elem_of_filter)%list_elem_of_fmap.
    split; [by destruct (Str.strip line)|]. split; [apply strip_idem|eauto].
  - induction lines as [|line lines IH]; [done|].
    rewrite Forall_cons, filter_cons, IH.
    destruct (Str.strip line) eqn:Hs; cbn [Str.truthy].
    + rewrite decide_False by done. tauto.
    + rewrite decide_True by done. cbn [map]. rewrite Hs. split; [|done].
      by intros [? _].
Qed.
